(** * A shallow embedding of the PBR pixel shader and its shader include file

    The development follows the two HLSL sources of the repository:

    - the shader include file (gamma helpers, the microfacet BRDF and
      [ColorFromLight]);
    - the pixel shader [main] (surface set-up, cascaded and world-space shadow
      sampling, the light accumulation loop and the final composite);

    and, on the C++ side, the texture and sampler maps of the class
    [Material].

    HLSL's [float] is kept abstract: every function is written over a type [F]
    with the operations of the class [Scalar], so a statement proved in this
    generality holds for whatever arithmetic the GPU implements.  Statements
    that depend on the arithmetic itself are proved for the instance over the
    real numbers (exact arithmetic: rounding, overflow and NaN are not part of
    that instance). *)

From Stdlib Require Import ZArith QArith List Bool Lia Reals Lra Psatz.
Import ListNotations.

Close Scope Q_scope.
Close Scope R_scope.

(** ** Scalars *)

(** The operations HLSL offers on [float], and the conversions between [int]
    and [float].  [flit] reads a decimal literal. *)
Class Scalar (F : Type) : Type := {
  flit : Q -> F;
  fofint : Z -> F;
  ftoint : F -> Z;
  fadd : F -> F -> F;
  fsub : F -> F -> F;
  fmul : F -> F -> F;
  fdiv : F -> F -> F;
  fneg : F -> F;
  fmax : F -> F -> F;
  fmin : F -> F -> F;
  fpow : F -> F -> F;
  fsqrt : F -> F;
  feqb : F -> F -> bool;
  fltb : F -> F -> bool;
  fleb : F -> F -> bool
}.

Arguments flit {F _} _%_Q.

Declare Scope hlsl_scope.
Delimit Scope hlsl_scope with hlsl.
Notation "a + b" := (fadd a b) : hlsl_scope.
Notation "a - b" := (fsub a b) : hlsl_scope.
Notation "a * b" := (fmul a b) : hlsl_scope.
Notation "a / b" := (fdiv a b) : hlsl_scope.
Notation "- a" := (fneg a) : hlsl_scope.
Notation "a == b" := (feqb a b) (at level 70, no associativity) : hlsl_scope.
Notation "a < b" := (fltb a b) : hlsl_scope.
Notation "a > b" := (fltb b a) : hlsl_scope.
Notation "a >= b" := (fleb b a) : hlsl_scope.

(** HLSL's [int] is a 32-bit two's complement integer. *)
Definition wrap32 (z : Z) : Z := ((z + 2 ^ 31) mod 2 ^ 32 - 2 ^ 31)%Z.

Definition int_add (a b : Z) : Z := wrap32 (a + b).

Definition int_sub (a b : Z) : Z := wrap32 (a - b).

(** The indices [0, 1, ..., n-1] a loop [for (int i = 0; i < n; i++)] visits. *)
Definition zrange (n : Z) : list Z := map Z.of_nat (seq 0 (Z.to_nat n)).

(** ** Vectors *)

Record float2 (F : Type) : Type := mkFloat2 { x2 : F; y2 : F }.

Record float3 (F : Type) : Type := mkFloat3 { x3 : F; y3 : F; z3 : F }.

Record float4 (F : Type) : Type := mkFloat4 { x4 : F; y4 : F; z4 : F; w4 : F }.

Arguments mkFloat2 {F} _ _.
Arguments x2 {F} _.
Arguments y2 {F} _.
Arguments mkFloat3 {F} _ _ _.
Arguments x3 {F} _.
Arguments y3 {F} _.
Arguments z3 {F} _.
Arguments mkFloat4 {F} _ _ _ _.
Arguments x4 {F} _.
Arguments y4 {F} _.
Arguments z4 {F} _.
Arguments w4 {F} _.

(** ** The HLSL intrinsics the shaders call *)

Section Intrinsics.
Context {F : Type} `{Scalar F}.
Local Open Scope hlsl_scope.

(** Swizzles. *)
Definition rgb (v : float4 F) : float3 F := mkFloat3 (x4 v) (y4 v) (z4 v).

Definition xy (v : float4 F) : float2 F := mkFloat2 (x4 v) (y4 v).

Definition rrr (s : F) : float3 F := mkFloat3 s s s.

(** Component-wise arithmetic on [float3]; a scalar operand is broadcast. *)
Definition add3 (a b : float3 F) : float3 F :=
  mkFloat3 (x3 a + x3 b) (y3 a + y3 b) (z3 a + z3 b).

Definition sub3 (a b : float3 F) : float3 F :=
  mkFloat3 (x3 a - x3 b) (y3 a - y3 b) (z3 a - z3 b).

Definition mul3 (a b : float3 F) : float3 F :=
  mkFloat3 (x3 a * x3 b) (y3 a * y3 b) (z3 a * z3 b).

Definition neg3 (a : float3 F) : float3 F :=
  mkFloat3 (- x3 a) (- y3 a) (- z3 a).

Definition scale3 (a : float3 F) (s : F) : float3 F := mul3 a (rrr s).

Definition sdiv3 (a : float3 F) (s : F) : float3 F :=
  mkFloat3 (x3 a / s) (y3 a / s) (z3 a / s).

Definition pow3 (a : float3 F) (e : F) : float3 F :=
  mkFloat3 (fpow (x3 a) e) (fpow (y3 a) e) (fpow (z3 a) e).

Definition saturate (s : F) : F := fmin (fmax s (flit 0)) (flit 1).

Definition saturate3 (a : float3 F) : float3 F :=
  mkFloat3 (saturate (x3 a)) (saturate (y3 a)) (saturate (z3 a)).

Definition dot (a b : float3 F) : F := x3 a * x3 b + y3 a * y3 b + z3 a * z3 b.

Definition length (a : float3 F) : F := fsqrt (dot a a).

Definition distance (a b : float3 F) : F := length (sub3 b a).

Definition normalize (a : float3 F) : float3 F := sdiv3 a (length a).

Definition cross (a b : float3 F) : float3 F :=
  mkFloat3 (y3 a * z3 b - z3 a * y3 b)
           (z3 a * x3 b - x3 a * z3 b)
           (x3 a * y3 b - y3 a * x3 b).

(** [reflect(i, n) = i - 2 * n * dot(i, n)]. *)
Definition reflect (i n : float3 F) : float3 F :=
  sub3 i (scale3 (mul3 (rrr (flit 2)) n) (dot i n)).

(** [lerp(x, y, s) = x * (1 - s) + y * s], per component. *)
Definition lerp (a b s : F) : F := a * (flit 1 - s) + b * s.

Definition lerp3 (a b s : float3 F) : float3 F :=
  mkFloat3 (lerp (x3 a) (x3 b) (x3 s)) (lerp (y3 a) (y3 b) (y3 s))
           (lerp (z3 a) (z3 b) (z3 s)).

(** [mul(v, float3x3(r0, r1, r2))]: the row vector [v] times the matrix whose
    rows are [r0], [r1] and [r2]. *)
Definition mul3x3 (v r0 r1 r2 : float3 F) : float3 F :=
  mkFloat3 (x3 v * x3 r0 + y3 v * x3 r1 + z3 v * x3 r2)
           (x3 v * y3 r0 + y3 v * y3 r1 + z3 v * y3 r2)
           (x3 v * z3 r0 + y3 v * z3 r1 + z3 v * z3 r2).

End Intrinsics.

(** ** The shader include file *)

Definition LIGHT_TYPE_DIRECTIONAL : Z := 0.

Definition LIGHT_TYPE_POINT : Z := 1.

Definition LIGHT_TYPE_SPOT : Z := 2.

(** [struct Light].  The header's trailing [padding] carries no data; the
    pixel shader reads a [castsShadows] member, which the revision of the
    header it was written against declares in that place. *)
Record Light (F : Type) : Type := mkLight {
  type : Z;
  direction : float3 F;
  range : F;
  position : float3 F;
  intensity : F;
  color : float3 F;
  spotFalloff : F;
  castsShadows : bool
}.

Arguments mkLight {F} _ _ _ _ _ _ _ _.
Arguments type {F} _.
Arguments direction {F} _.
Arguments range {F} _.
Arguments position {F} _.
Arguments intensity {F} _.
Arguments color {F} _.
Arguments spotFalloff {F} _.
Arguments castsShadows {F} _.

Section ShaderIncludes.
Context {F : Type} `{Scalar F}.
Local Open Scope hlsl_scope.

Definition F0_NON_METAL : F := flit 0.04.

Definition MIN_ROUGHNESS : F := flit 0.0000001.

Definition PI : F := flit 3.14159265359.

Definition LightenToGamma (color : float3 F) : float3 F :=
  pow3 color (flit 1 / flit 2.2).

Definition DarkenToGamma (color : float3 F) : float3 F :=
  pow3 color (flit 2.2).

Definition Diffuse (dirToLight normal : float3 F) : float3 F :=
  rrr (saturate (dot normal dirToLight)).

Definition Attenuate (light : Light F) (worldPos : float3 F) : F :=
  let dist := distance (position light) worldPos in
  let att := saturate (flit 1 - (dist * dist / (range light * range light))) in
  att * att.

Definition DiffuseEnergyConserve (diffuse specular : float3 F) (metalness : F)
  : float3 F :=
  mul3 diffuse
       (scale3 (sub3 (rrr (flit 1)) (saturate3 specular)) (flit 1 - metalness)).

(** The two factors of [SpecDistribution]'s quotient, named so that
    statements can speak of the denominator. *)
Definition SpecDistribution_a2 (roughness : F) : F :=
  let a := roughness * roughness in
  fmax (a * a) MIN_ROUGHNESS.

Definition SpecDistribution_denom (n h : float3 F) (roughness : F) : F :=
  let NdotH := saturate (dot n h) in
  let NdotH2 := NdotH * NdotH in
  let a2 := SpecDistribution_a2 roughness in
  let denomToSquare := NdotH2 * (a2 - flit 1) + flit 1 in
  PI * denomToSquare * denomToSquare.

Definition SpecDistribution (n h : float3 F) (roughness : F) : F :=
  let NdotH := saturate (dot n h) in
  let NdotH2 := NdotH * NdotH in
  let a := roughness * roughness in
  let a2 := fmax (a * a) MIN_ROUGHNESS in
  let denomToSquare := NdotH2 * (a2 - flit 1) + flit 1 in
  a2 / (PI * denomToSquare * denomToSquare).

Definition Fresnel (v h f0 : float3 F) : float3 F :=
  let VdotH := saturate (dot v h) in
  add3 f0 (scale3 (sub3 (rrr (flit 1)) f0) (fpow (flit 1 - VdotH) (flit 5))).

Definition GeometricShadowing (n v : float3 F) (roughness : F) : F :=
  let a := roughness * roughness in
  let k := a / flit 2.0 in
  let NdotV := saturate (dot n v) in
  NdotV / (NdotV * (flit 1 - k) + k).

Definition MicrofacetBRDF (n l v : float3 F) (roughness : F)
  (specColor : float3 F) : float3 F :=
  let h := normalize (add3 v l) in
  let D := SpecDistribution n h roughness in
  let Fr := Fresnel v h specColor in
  let G := GeometricShadowing n v roughness * GeometricShadowing n l roughness in
  sdiv3 (scale3 (mul3 (rrr D) Fr) G) (flit 4 * fmax (dot n v) (dot n l)).

Definition ColorFromLight (light : Light F)
  (normal worldPos view surfaceColor specularColor : float3 F)
  (roughness metallic : F) : float3 F :=
  if (type light =? LIGHT_TYPE_DIRECTIONAL)%Z then
    let dirToLight := normalize (neg3 (direction light)) in
    let diffuse := Diffuse dirToLight normal in
    let specular := MicrofacetBRDF normal dirToLight view roughness specularColor in
    let diffuse := DiffuseEnergyConserve diffuse specular metallic in
    let total :=
      mul3 (scale3 (add3 (mul3 diffuse surfaceColor) specular) (intensity light))
           (color light) in
    total
  else if (type light =? LIGHT_TYPE_POINT)%Z then
    let dirToLight := normalize (sub3 (position light) worldPos) in
    let diffuse := Diffuse dirToLight normal in
    let specular := MicrofacetBRDF normal dirToLight view roughness specularColor in
    let diffuse := DiffuseEnergyConserve diffuse specular metallic in
    let total :=
      scale3
        (mul3 (scale3 (add3 (mul3 diffuse surfaceColor) specular) (intensity light))
              (color light))
        (Attenuate light worldPos) in
    total
  else
    mkFloat3 (flit 0) (flit 0) (flit 0).

End ShaderIncludes.

(** ** The pixel shader *)

Definition MAX_NUM_LIGHTS : Z := 6.

(** [cbuffer ExternalData].  The array [lights] is kept as the list of its
    elements; an element is read by index with [light_at]. *)
Record ExternalData (F : Type) : Type := mkExternalData {
  colorTint : float4 F;
  roughnessFlat : F;
  cameraPosition : float3 F;
  lights : list (Light F);
  uvScale : F;
  metallicFlat : F;
  uvOffset : float2 F;
  skyMipCount : Z;
  lightCount : Z;
  shadowCountCascade : Z;
  shadowCountWorld : Z;
  indirectLightIntensity : F
}.

Arguments mkExternalData {F} _ _ _ _ _ _ _ _ _ _ _ _.
Arguments colorTint {F} _.
Arguments roughnessFlat {F} _.
Arguments cameraPosition {F} _.
Arguments lights {F} _.
Arguments uvScale {F} _.
Arguments metallicFlat {F} _.
Arguments uvOffset {F} _.
Arguments skyMipCount {F} _.
Arguments lightCount {F} _.
Arguments shadowCountCascade {F} _.
Arguments shadowCountWorld {F} _.
Arguments indirectLightIntensity {F} _.

(** The bound textures, each with the one way the shader samples it:
    [Sample(BasicSampler, uv)] for the four material maps,
    [SampleCmpLevelZero(ShadowSampler, location, compareValue)] for the two
    shadow map arrays and [SampleLevel(BasicSampler, dir, lod)] for the sky. *)
Record Textures (F : Type) : Type := mkTextures {
  Albedo : float2 F -> float4 F;
  NormalMap : float2 F -> float4 F;
  RoughnessMap : float2 F -> float4 F;
  MetallicMap : float2 F -> float4 F;
  ShadowMapsCascade : float3 F -> F -> F;
  ShadowMapsWorld : float3 F -> F -> F;
  SkyCubeMap : float3 F -> F -> float4 F
}.

Arguments mkTextures {F} _ _ _ _ _ _ _.
Arguments Albedo {F} _.
Arguments NormalMap {F} _.
Arguments RoughnessMap {F} _.
Arguments MetallicMap {F} _.
Arguments ShadowMapsCascade {F} _.
Arguments ShadowMapsWorld {F} _.
Arguments SkyCubeMap {F} _.

(** [struct VertexToPixel] as the pixel shader reads it: the members of the
    available header and the two arrays of light-space positions the shader
    indexes. *)
Record VertexToPixel (F : Type) : Type := mkVertexToPixel {
  screenPosition : float4 F;
  uv : float2 F;
  normal : float3 F;
  tangent : float3 F;
  worldPosition : float3 F;
  shadowCascadePositions : Z -> float4 F;
  shadowWorldPositions : Z -> float4 F
}.

Arguments mkVertexToPixel {F} _ _ _ _ _ _ _.
Arguments screenPosition {F} _.
Arguments uv {F} _.
Arguments normal {F} _.
Arguments tangent {F} _.
Arguments worldPosition {F} _.
Arguments shadowCascadePositions {F} _.
Arguments shadowWorldPositions {F} _.

(** What the pixel shader takes from the revision of the include file it was
    written against and the available header does not declare: two array
    bounds, the cascade selection function and the table of cube-face
    directions.  They are parameters of the shader.  [uninitialized] stands
    for the content of a local array element that was never written. *)
Record ShadowDecls (F : Type) : Type := mkShadowDecls {
  MAX_NUM_SHADOW_CASCADES : Z;
  MAX_NUM_SHADOW_MAPS : Z;
  CalcCascadeIndex : float3 F -> Z -> Z -> Z;
  cubeFaceDirections : Z -> float3 F;
  uninitialized : Z -> F
}.

Arguments mkShadowDecls {F} _ _ _ _ _.
Arguments MAX_NUM_SHADOW_CASCADES {F} _.
Arguments MAX_NUM_SHADOW_MAPS {F} _.
Arguments CalcCascadeIndex {F} _.
Arguments cubeFaceDirections {F} _.
Arguments uninitialized {F} _.

Section PixelShader.
Context {F : Type} `{Scalar F}.
Local Open Scope hlsl_scope.

Definition float3_zero : float3 F := mkFloat3 (flit 0) (flit 0) (flit 0).

(** A read past the end of a constant buffer array yields zeroes. *)
Definition Light_zero : Light F :=
  mkLight 0%Z float3_zero (flit 0) float3_zero (flit 0) float3_zero (flit 0) false.

Definition light_at (ls : list (Light F)) (i : Z) : Light F :=
  nth (Z.to_nat i) ls Light_zero.

(** Modelled from the spec: the branch-free comparison helpers [when_lt],
    [when_gt] and [or_all] are not in the available header.  The spec's
    border rule and the condition the shader keeps as a comment above their
    use say what they compute: [when_lt(x, y)] is 1 where [x < y] and 0
    elsewhere, [when_gt(x, y)] is 1 where [x > y] and 0 elsewhere, and
    [or_all(a, b)] is 1 when some component of [a] or [b] is non-zero and 0
    otherwise. *)
Definition when_lt (x y : F) : F := if x < y then flit 1 else flit 0.

(** Modelled from the spec: [when_gt], as described above. *)
Definition when_gt (x y : F) : F := if x > y then flit 1 else flit 0.

(** Modelled from the spec: [when_lt] on [float4], component by component. *)
Definition when_lt4 (a b : float4 F) : float4 F :=
  mkFloat4 (when_lt (x4 a) (x4 b)) (when_lt (y4 a) (y4 b))
           (when_lt (z4 a) (z4 b)) (when_lt (w4 a) (w4 b)).

(** Modelled from the spec: [when_gt] on [float4], component by component. *)
Definition when_gt4 (a b : float4 F) : float4 F :=
  mkFloat4 (when_gt (x4 a) (x4 b)) (when_gt (y4 a) (y4 b))
           (when_gt (z4 a) (z4 b)) (when_gt (w4 a) (w4 b)).

(** Modelled from the spec: the test [or_all] applies to a component. *)
Definition nonzero (s : F) : bool := negb (s == flit 0).

(** Modelled from the spec: some component of [a] is non-zero. *)
Definition any4 (a : float4 F) : bool :=
  nonzero (x4 a) || nonzero (y4 a) || nonzero (z4 a) || nonzero (w4 a).

(** Modelled from the spec: [or_all], as described above. *)
Definition or_all (a b : float4 F) : F :=
  if any4 a || any4 b then flit 1 else flit 0.

(** Lines 66-68: the texture coordinates every material map is sampled at. *)
Definition transformUV (ed : ExternalData F) (uv0 : float2 F) : float2 F :=
  let u := mkFloat2 (x2 uv0 / uvScale ed) (y2 uv0 / uvScale ed) in
  let u := mkFloat2 (x2 u - x2 (uvOffset ed)) (y2 u) in
  mkFloat2 (x2 u) (y2 u + y2 (uvOffset ed)).

(** Lines 85-88. *)
Definition surfaceRoughness (ed : ExternalData F) (tex : Textures F)
  (uv1 : float2 F) : F :=
  let roughness := roughnessFlat ed in
  let roughness :=
    if roughnessFlat ed == flit (-1) then x4 (RoughnessMap tex uv1)
    else roughness in
  fmax roughness MIN_ROUGHNESS.

(** Lines 91-93. *)
Definition surfaceMetallic (ed : ExternalData F) (tex : Textures F)
  (uv1 : float2 F) : F :=
  let metallic := metallicFlat ed in
  if metallicFlat ed == flit (-1) then x4 (MetallicMap tex uv1)
  else metallic.

(** The shadow map coordinates of a light-space position: perspective divide,
    remap from [-1, 1] to [0, 1], flip of the y axis. *)
Definition shadowUV (p : float4 F) : float2 F :=
  let u := mkFloat2 (x4 p / w4 p * flit 0.5 + flit 0.5)
                    (y4 p / w4 p * flit 0.5 + flit 0.5) in
  mkFloat2 (x2 u) (flit 1.0 - y2 u).

(** Lines 126-139: the cascade finally sampled, its shadow map coordinates
    and the pixel's depth in it, from the cascade [cascadeIndex] the distance
    bands selected. *)
Definition cascadeBorderStep (input : VertexToPixel F)
  (cascadeIndex numShadowCascade : Z) : Z * float2 F * F :=
  let shadowCascadeUVs := shadowUV (shadowCascadePositions input cascadeIndex) in
  let lessThan :=
    when_lt4 (mkFloat4 (x2 shadowCascadeUVs) (y2 shadowCascadeUVs) (flit 0) (flit 0))
             (mkFloat4 (flit 0.01) (flit 0.01) (flit 0) (flit 0)) in
  let greatThan :=
    when_gt4 (mkFloat4 (x2 shadowCascadeUVs) (y2 shadowCascadeUVs) (flit 0) (flit 0))
             (mkFloat4 (flit 0.99) (flit 0.99) (flit 0) (flit 0)) in
  let validIndex :=
    when_lt (fofint (int_add cascadeIndex 1)) (fofint numShadowCascade) in
  let cascadeIndex :=
    ftoint (fofint cascadeIndex
            + fofint 1 * or_all lessThan greatThan * validIndex) in
  let shadowCascadeUVs := shadowUV (shadowCascadePositions input cascadeIndex) in
  let depthFromCascadeLight :=
    z4 (shadowCascadePositions input cascadeIndex)
    / w4 (shadowCascadePositions input cascadeIndex) in
  (cascadeIndex, shadowCascadeUVs, depthFromCascadeLight).

(** Lines 145-146. *)
Definition shadowAmountCascade (tex : Textures F) (sel : Z * float2 F * F) : F :=
  let '(cascadeIndex, shadowCascadeUVs, depthFromCascadeLight) := sel in
  let sampleAt :=
    mkFloat3 (x2 shadowCascadeUVs) (y2 shadowCascadeUVs) (fofint cascadeIndex) in
  ShadowMapsCascade tex sampleAt depthFromCascadeLight.

(** Writing element [i] of a local array. *)
Definition upd {A : Type} (arr : Z -> A) (i : Z) (v : A) : Z -> A :=
  fun k => if (k =? i)%Z then v else arr k.

(** Lines 151-160: the first loop over the world-space shadow maps. *)
Definition worldShadowCoords (sd : ShadowDecls F) (input : VertexToPixel F)
  (numShadowWorld : Z) : (Z -> F) * (Z -> float2 F) :=
  fold_left
    (fun (st : (Z -> F) * (Z -> float2 F)) (i : Z) =>
       let '(depthFromWorldLights, shadowWorldUVs) := st in
       let depthFromWorldLights :=
         upd depthFromWorldLights i
             (z4 (shadowWorldPositions input i) / w4 (shadowWorldPositions input i)) in
       let shadowWorldUVs :=
         upd shadowWorldUVs i (shadowUV (shadowWorldPositions input i)) in
       (depthFromWorldLights, shadowWorldUVs))
    (zrange numShadowWorld)
    (uninitialized sd,
     fun k => mkFloat2 (uninitialized sd k) (uninitialized sd k)).

(** Lines 164-170: the second loop, one comparison sample per shadow map. *)
Definition shadowAmountWorld (sd : ShadowDecls F) (tex : Textures F)
  (input : VertexToPixel F) (numShadowWorld : Z) : Z -> F :=
  let '(depthFromWorldLights, shadowWorldUVs) :=
    worldShadowCoords sd input numShadowWorld in
  fold_left
    (fun (arr : Z -> F) (i : Z) =>
       let sampleAt :=
         mkFloat3 (x2 (shadowWorldUVs i)) (y2 (shadowWorldUVs i)) (fofint i) in
       upd arr i (ShadowMapsWorld tex sampleAt (depthFromWorldLights i)))
    (zrange numShadowWorld)
    (uninitialized sd).

(** Lines 188-198: the cube face a point light's shadow is read from.  The
    state of the loop is [(maxDot, directionIndex)]. *)
Definition cubeFaceStep (sd : ShadowDecls F) (light : Light F)
  (worldPos : float3 F) (st : F * Z) (j : Z) : F * Z :=
  if castsShadows light then
    let '(maxDot, directionIndex) := st in
    let dotProduct :=
      dot (normalize (sub3 worldPos (position light))) (cubeFaceDirections sd j) in
    let directionIndex := if dotProduct >= maxDot then j else directionIndex in
    let maxDot := fmax dotProduct maxDot in
    (maxDot, directionIndex)
  else st.

Definition cubeFaceIndex (sd : ShadowDecls F) (light : Light F)
  (worldPos : float3 F) : Z :=
  snd (fold_left (cubeFaceStep sd light worldPos) (zrange 6) (flit 0.0, 0%Z)).

(** The surface inputs every call of [ColorFromLight] in the loop shares. *)
Record Surface : Type := mkSurface {
  s_normal : float3 F;
  s_worldPosition : float3 F;
  s_view : float3 F;
  s_surfaceColor : float3 F;
  s_specularColor : float3 F;
  s_roughness : F;
  s_metallic : F
}.

Definition unshadowed (s : Surface) (light : Light F) : float3 F :=
  ColorFromLight light (s_normal s) (s_worldPosition s) (s_view s)
                 (s_surfaceColor s) (s_specularColor s) (s_roughness s)
                 (s_metallic s).

(** Lines 183-222: one iteration of the light loop.  The state is
    [(finalColor, shadowIndex)]. *)
Definition lightStep (sd : ShadowDecls F) (s : Surface)
  (shadowCascade : F) (shadowWorld : Z -> F) (light : Light F)
  (st : float3 F * Z) : float3 F * Z :=
  let '(finalColor, shadowIndex) := st in
  if (type light =? LIGHT_TYPE_POINT)%Z then
    let unshadowedColor := unshadowed s light in
    let directionIndex := cubeFaceIndex sd light (s_worldPosition s) in
    let finalColor :=
      add3 finalColor
           (scale3 unshadowedColor
                   (if castsShadows light
                    then shadowWorld (int_add shadowIndex directionIndex)
                    else flit 1.0)) in
    let shadowIndex :=
      if castsShadows light then int_add shadowIndex 6 else shadowIndex in
    (finalColor, shadowIndex)
  else if (type light =? LIGHT_TYPE_SPOT)%Z then
    let finalColor :=
      add3 finalColor
           (scale3 (unshadowed s light)
                   (if castsShadows light then shadowWorld shadowIndex
                    else flit 1.0)) in
    let shadowIndex :=
      if castsShadows light then int_add shadowIndex 1 else shadowIndex in
    (finalColor, shadowIndex)
  else if (type light =? LIGHT_TYPE_DIRECTIONAL)%Z then
    let finalColor :=
      add3 finalColor
           (scale3 (unshadowed s light)
                   (if castsShadows light then shadowCascade else flit 1.0)) in
    (finalColor, shadowIndex)
  else
    (finalColor, shadowIndex).

(** Lines 176-223: the state after the first [n] iterations of the loop. *)
Definition lightLoop (sd : ShadowDecls F) (s : Surface)
  (shadowCascade : F) (shadowWorld : Z -> F) (ls : list (Light F)) (n : Z)
  : float3 F * Z :=
  fold_left
    (fun st i => lightStep sd s shadowCascade shadowWorld (light_at ls i) st)
    (zrange n)
    (float3_zero, 0%Z).

(** Lines 225-232: the final composite. *)
Definition composite (finalColor indirectDiffuse surfaceColor : float3 F)
  (indirectLightIntensity : F) (reflectColor view normal specularColor : float3 F)
  : float3 F :=
  let finalColor := LightenToGamma finalColor in
  let finalColor :=
    add3 finalColor
         (scale3 (mul3 indirectDiffuse (LightenToGamma surfaceColor))
                 indirectLightIntensity) in
  lerp3 finalColor reflectColor (Fresnel view normal specularColor).

(** The per-pixel values the shader derives before it turns to the lights
    (lines 62-112). *)
Definition surfaceNormal (tex : Textures F) (input : VertexToPixel F)
  (uv1 : float2 F) : float3 F :=
  let normal0 := normalize (normal input) in
  let tangent0 := normalize (tangent input) in
  let tangent0 :=
    normalize (sub3 tangent0 (scale3 normal0 (dot tangent0 normal0))) in
  let unpackedNormal :=
    sub3 (scale3 (rgb (NormalMap tex uv1)) (flit 2)) (rrr (flit 1)) in
  let bitangent := cross normal0 tangent0 in
  normalize (mul3x3 unpackedNormal tangent0 bitangent normal0).

Definition surfaceOf (ed : ExternalData F) (tex : Textures F)
  (input : VertexToPixel F) : Surface :=
  let uv1 := transformUV ed (uv input) in
  let positionToCam := sub3 (cameraPosition ed) (worldPosition input) in
  let view := normalize positionToCam in
  let normal1 := surfaceNormal tex input uv1 in
  let albedo := DarkenToGamma (rgb (Albedo tex uv1)) in
  let roughness := surfaceRoughness ed tex uv1 in
  let metallic := surfaceMetallic ed tex uv1 in
  let specularColor := lerp3 (rrr F0_NON_METAL) albedo (rrr metallic) in
  let surfaceColor := mul3 albedo (rgb (colorTint ed)) in
  mkSurface normal1 (worldPosition input) view surfaceColor specularColor
            roughness metallic.

(** The accumulated direct lighting (lines 115-223). *)
Definition directLighting (sd : ShadowDecls F) (ed : ExternalData F)
  (tex : Textures F) (input : VertexToPixel F) : float3 F :=
  let s := surfaceOf ed tex input in
  let positionToCam := sub3 (cameraPosition ed) (worldPosition input) in
  let numLights := Z.min (lightCount ed) MAX_NUM_LIGHTS in
  let numShadowCascade :=
    Z.min (shadowCountCascade ed) (MAX_NUM_SHADOW_CASCADES sd) in
  let numShadowWorld := Z.min (shadowCountWorld ed) (MAX_NUM_SHADOW_MAPS sd) in
  let cascadeIndex := CalcCascadeIndex sd positionToCam numShadowCascade 125%Z in
  let shadowCascade :=
    shadowAmountCascade tex (cascadeBorderStep input cascadeIndex numShadowCascade) in
  let shadowWorld := shadowAmountWorld sd tex input numShadowWorld in
  fst (lightLoop sd s shadowCascade shadowWorld (lights ed) numLights).

(** The sky samples (lines 104-112). *)
Definition reflectColorOf (ed : ExternalData F) (tex : Textures F)
  (s : Surface) : float3 F :=
  let incident := neg3 (s_view s) in
  let reflectDir := reflect incident (s_normal s) in
  rgb (SkyCubeMap tex reflectDir
         (fpow (s_roughness s) (flit 0.3) * fofint (int_sub (skyMipCount ed) 1))).

Definition indirectDiffuseOf (ed : ExternalData F) (tex : Textures F)
  (s : Surface) : float3 F :=
  let indirectDiffuse :=
    rgb (SkyCubeMap tex (s_normal s) (fofint (int_sub (skyMipCount ed) 1))) in
  DiffuseEnergyConserve indirectDiffuse (s_specularColor s) (s_metallic s).

(** The entry point. *)
Definition main (sd : ShadowDecls F) (ed : ExternalData F) (tex : Textures F)
  (input : VertexToPixel F) : float4 F :=
  let s := surfaceOf ed tex input in
  let reflectColor := reflectColorOf ed tex s in
  let indirectDiffuse := indirectDiffuseOf ed tex s in
  let finalColor := directLighting sd ed tex input in
  let finalColor :=
    composite finalColor indirectDiffuse (s_surfaceColor s)
              (indirectLightIntensity ed) reflectColor (s_view s) (s_normal s)
              (s_specularColor s) in
  mkFloat4 (x3 finalColor) (y3 finalColor) (z3 finalColor) (flit 1).

End PixelShader.

(** ** Exact arithmetic: the instance over the real numbers *)

(** Conversion to [int] truncates towards zero. *)
Definition Rtrunc (r : R) : Z :=
  if Rle_dec 0 r then Int_part r else (- Int_part (- r))%Z.

(** [pow] on the reals, with [pow(0, y) = 0] for [y <> 0].  (HLSL yields NaN
    for a negative base; the reals have no such value and the statements
    below never raise a negative number.) *)
Definition Rpow (r e : R) : R :=
  if Req_dec_T r 0 then (if Req_dec_T e 0 then 1%R else 0%R) else Rpower r e.

Definition Reqb (a b : R) : bool := if Req_dec_T a b then true else false.

Definition Rltb (a b : R) : bool := if Rlt_dec a b then true else false.

Definition Rleb (a b : R) : bool := if Rle_dec a b then true else false.

#[export] Instance Scalar_R : Scalar R := {|
  flit := Q2R;
  fofint := IZR;
  ftoint := Rtrunc;
  fadd := Rplus;
  fsub := Rminus;
  fmul := Rmult;
  fdiv := Rdiv;
  fneg := Ropp;
  fmax := Rmax;
  fmin := Rmin;
  fpow := Rpow;
  fsqrt := sqrt;
  feqb := Reqb;
  fltb := Rltb;
  fleb := Rleb
|}.

(** ** What the statements below compare the code with *)

Section Specification.
Context {F : Type} `{Scalar F}.
Local Open Scope hlsl_scope.

(** The number of shadow-casting lights of type [t] among the first [i]
    lights. *)
Definition shadowCasters (t : Z) (ls : list (Light F)) (i : Z) : Z :=
  Z.of_nat
    (List.length
       (filter (fun j => (type (light_at ls j) =? t)%Z
                         && castsShadows (light_at ls j))
               (zrange i))).

(** The world-space shadow slot the spec assigns to light [i]. *)
Definition slotIndex (ls : list (Light F)) (i : Z) : Z :=
  (6 * shadowCasters LIGHT_TYPE_POINT ls i
   + shadowCasters LIGHT_TYPE_SPOT ls i)%Z.

(** The alignment of the direction from the light to the pixel with the
    axis of cube face [j]. *)
Definition faceAlignment (sd : ShadowDecls F) (light : Light F)
  (worldPos : float3 F) (j : Z) : F :=
  dot (normalize (sub3 worldPos (position light))) (cubeFaceDirections sd j).

(** The array [lights] with element [i] removed. *)
Definition removeLight (ls : list (Light F)) (i : Z) : list (Light F) :=
  firstn (Z.to_nat i) ls ++ skipn (S (Z.to_nat i)) ls.

Definition withLights (ed : ExternalData F) (ls : list (Light F)) (n : Z)
  : ExternalData F :=
  mkExternalData (colorTint ed) (roughnessFlat ed) (cameraPosition ed) ls
                 (uvScale ed) (metallicFlat ed) (uvOffset ed) (skyMipCount ed)
                 n (shadowCountCascade ed) (shadowCountWorld ed)
                 (indirectLightIntensity ed).

(** Two texture sets that differ at most in the material maps away from the
    coordinates [u]. *)
Definition sameSamplesAt (u : float2 F) (t1 t2 : Textures F) : Prop :=
  Albedo t1 u = Albedo t2 u /\
  NormalMap t1 u = NormalMap t2 u /\
  RoughnessMap t1 u = RoughnessMap t2 u /\
  MetallicMap t1 u = MetallicMap t2 u /\
  ShadowMapsCascade t1 = ShadowMapsCascade t2 /\
  ShadowMapsWorld t1 = ShadowMapsWorld t2 /\
  SkyCubeMap t1 = SkyCubeMap t2.

(** A texture set with other roughness and metallic maps. *)
Definition withPbrMaps (t : Textures F) (rm mm : float2 F -> float4 F)
  : Textures F :=
  mkTextures (Albedo t) (NormalMap t) rm mm (ShadowMapsCascade t)
             (ShadowMapsWorld t) (SkyCubeMap t).

(** The final composite as the spec words it: the indirect diffuse sample is
    scaled by the intensity factor alone. *)
Definition compositeAsWorded (finalColor indirectDiffuse : float3 F)
  (indirectLightIntensity : F) (reflectColor view normal specularColor : float3 F)
  : float3 F :=
  let finalColor := LightenToGamma finalColor in
  let finalColor :=
    add3 finalColor (scale3 indirectDiffuse indirectLightIntensity) in
  lerp3 finalColor reflectColor (Fresnel view normal specularColor).

Definition mainAsWorded (sd : ShadowDecls F) (ed : ExternalData F)
  (tex : Textures F) (input : VertexToPixel F) : float4 F :=
  let s := surfaceOf ed tex input in
  let finalColor :=
    compositeAsWorded (directLighting sd ed tex input)
                      (indirectDiffuseOf ed tex s) (indirectLightIntensity ed)
                      (reflectColorOf ed tex s) (s_view s) (s_normal s)
                      (s_specularColor s) in
  mkFloat4 (x3 finalColor) (y3 finalColor) (z3 finalColor) (flit 1).

End Specification.

(** ** Further code of the shader include file and of the pixel shader *)

Section FurtherShaderCode.
Context {F : Type} `{Scalar F}.
Local Open Scope hlsl_scope.

(** [Specular]: the Phong term of the shader include file (lines 82-91). *)
Definition Specular (light : Light F) (normal view : float3 F) (exponent : F)
  : float3 F :=
  if exponent > flit 0.05 then
    let r := reflect (normalize (direction light)) normal in
    rrr (fpow (saturate (dot r view)) exponent)
  else
    mkFloat3 (flit 0) (flit 0) (flit 0).

(** The denominator of [GeometricShadowing]'s quotient. *)
Definition GeometricShadowing_denom (n v : float3 F) (roughness : F) : F :=
  let a := roughness * roughness in
  let k := a / flit 2.0 in
  let NdotV := saturate (dot n v) in
  NdotV * (flit 1 - k) + k.

(** The mip level at which [main] samples the sky for reflections
    (line 108). *)
Definition reflectionMipLevel (ed : ExternalData F) (roughness : F) : F :=
  fpow roughness (flit 0.3) * fofint (int_sub (skyMipCount ed) 1).

(** A texture set with other shadow map arrays. *)
Definition withShadowMaps (t : Textures F) (c w : float3 F -> F -> F)
  : Textures F :=
  mkTextures (Albedo t) (NormalMap t) (RoughnessMap t) (MetallicMap t) c w
             (SkyCubeMap t).

(** What the two loops of lines 151-170 leave in element [i] of
    [shadowAmountWorld]. *)
Definition worldShadowSample (tex : Textures F) (input : VertexToPixel F)
  (i : Z) : F :=
  let p := shadowWorldPositions input i in
  ShadowMapsWorld tex
    (mkFloat3 (x2 (shadowUV p)) (y2 (shadowUV p)) (fofint i))
    (z4 p / w4 p).

(** Lines 204 and 218 of the header: the direction towards the light that
    [ColorFromLight] computes for a directional light and for a point
    light. *)
Definition dirToLightOf (light : Light F) (worldPos : float3 F) : float3 F :=
  if (type light =? LIGHT_TYPE_DIRECTIONAL)%Z
  then normalize (neg3 (direction light))
  else normalize (sub3 (position light) worldPos).

End FurtherShaderCode.

(** ** The material class *)

From Stdlib Require String.

(** [Material] keeps its textures and samplers in two
    [std::unordered_map<std::string, ...>]; the map is modelled as a list of
    bindings with at most one binding per key. *)
Module Material.
Import String.

Definition umap (A : Type) : Type := list (String.string * A).

Fixpoint find {A : Type} (k : String.string) (m : umap A) : option A :=
  match m with
  | [] => None
  | (k', v) :: m' => if String.eqb k k' then Some v else find k m'
  end.

(** [insert]: a key that is present keeps its value. *)
Definition insert {A : Type} (k : String.string) (v : A) (m : umap A) : umap A :=
  match find k m with
  | Some _ => m
  | None => (k, v) :: m
  end.

(** [insert_or_assign]: a key that is present takes the new value. *)
Fixpoint insert_or_assign {A : Type} (k : String.string) (v : A) (m : umap A)
  : umap A :=
  match m with
  | [] => [(k, v)]
  | (k', v') :: m' =>
      if String.eqb k k' then (k, v) :: m'
      else (k', v') :: insert_or_assign k v m'
  end.

Definition size {A : Type} (m : umap A) : nat := List.length m.

Definition unique_keys {A : Type} (m : umap A) : Prop := NoDup (map fst m).

(** The members of the class; [Srv] and [Sampler] stand for the COM
    pointers to a shader resource view and to a sampler state, [Shader] for
    the shared pointers to the two shader stages. *)
Record t (F Shader Srv Sampler : Type) : Type := mk {
  vertexShader : Shader;
  pixelShader : Shader;
  name : String.string;
  colorTint : float4 F;
  roughness : F;
  metallic : F;
  textureScale : F;
  textureOffset : float2 F;
  textureSrvs : umap Srv;
  textureSamplers : umap Sampler
}.

Arguments mk {F Shader Srv Sampler} _ _ _ _ _ _ _ _ _ _.
Arguments vertexShader {F Shader Srv Sampler} _.
Arguments pixelShader {F Shader Srv Sampler} _.
Arguments name {F Shader Srv Sampler} _.
Arguments colorTint {F Shader Srv Sampler} _.
Arguments roughness {F Shader Srv Sampler} _.
Arguments metallic {F Shader Srv Sampler} _.
Arguments textureScale {F Shader Srv Sampler} _.
Arguments textureOffset {F Shader Srv Sampler} _.
Arguments textureSrvs {F Shader Srv Sampler} _.
Arguments textureSamplers {F Shader Srv Sampler} _.

Section Methods.
Context {F Shader Srv Sampler : Type}.

Definition withTextureSrvs (m : t F Shader Srv Sampler) (srvs : umap Srv)
  : t F Shader Srv Sampler :=
  mk (vertexShader m) (pixelShader m) (name m) (colorTint m) (roughness m)
     (metallic m) (textureScale m) (textureOffset m) srvs (textureSamplers m).

Definition withTextureSamplers (m : t F Shader Srv Sampler)
  (samplers : umap Sampler) : t F Shader Srv Sampler :=
  mk (vertexShader m) (pixelShader m) (name m) (colorTint m) (roughness m)
     (metallic m) (textureScale m) (textureOffset m) (textureSrvs m) samplers.

Definition SetAlbedo (m : t F Shader Srv Sampler) (srv : Srv)
  : t F Shader Srv Sampler :=
  withTextureSrvs m (insert_or_assign "Albedo"%string srv (textureSrvs m)).

Definition SetNormal (m : t F Shader Srv Sampler) (srv : Srv)
  : t F Shader Srv Sampler :=
  withTextureSrvs m (insert_or_assign "NormalMap"%string srv (textureSrvs m)).

Definition AddSampler (m : t F Shader Srv Sampler)
  (shaderName : String.string) (sampler : Sampler) : t F Shader Srv Sampler :=
  withTextureSamplers m (insert shaderName sampler (textureSamplers m)).

End Methods.

End Material.

(** ** Cube faces and a concrete scene, over the reals *)

(** A value of type [int]. *)
Definition is_int (z : Z) : Prop := (- 2147483648 <= z <= 2147483647)%Z.

(** Modelled from the spec: the table [cubeFaceDirections] is not in the
    available header; the spec calls its entries the six canonical cube-face
    axis directions.  These are the six axes. *)
Definition cubeFaceAxes : list (float3 R) :=
  [ mkFloat3 1 0 0; mkFloat3 (-1) 0 0;
    mkFloat3 0 1 0; mkFloat3 0 (-1) 0;
    mkFloat3 0 0 1; mkFloat3 0 0 (-1) ]%R.

(** A table of cube-face directions lists the six axes, in some order. *)
Definition isCubeFaceTable (t : Z -> float3 R) : Prop :=
  (forall j, (0 <= j <= 5)%Z -> In (t j) cubeFaceAxes) /\
  (forall a, In a cubeFaceAxes -> exists j, (0 <= j <= 5)%Z /\ t j = a).

(** The axes in the order in which Direct3D numbers the faces of a cube map. *)
Definition d3dCubeFaces (j : Z) : float3 R :=
  nth (Z.to_nat j) cubeFaceAxes (mkFloat3 0 0 0)%R.

Definition demoDecls : ShadowDecls R :=
  mkShadowDecls 4%Z 8%Z (fun _ _ _ => 0%Z) d3dCubeFaces (fun _ => 0%R).

Local Open Scope R_scope.

Definition demoPointCaster : Light R :=
  mkLight LIGHT_TYPE_POINT (mkFloat3 0 0 0) 10 (mkFloat3 0 (-2) 0) 1
          (mkFloat3 1 1 1) 0 true.

Definition demoSpotCaster : Light R :=
  mkLight LIGHT_TYPE_SPOT (mkFloat3 0 (-1) 0) 10 (mkFloat3 0 5 0) 1
          (mkFloat3 1 1 1) 1 true.

Definition demoSun : Light R :=
  mkLight LIGHT_TYPE_DIRECTIONAL (mkFloat3 0 (-1) 0) 0 (mkFloat3 0 0 0) 1
          (mkFloat3 1 1 1) 0 false.

Definition demoUntyped : Light R :=
  mkLight 7%Z (mkFloat3 0 (-1) 0) 10 (mkFloat3 0 5 0) 1 (mkFloat3 1 1 1) 0 true.

Definition demoLights : list (Light R) :=
  [demoPointCaster; demoUntyped; demoSpotCaster; demoSun].

(** A black, rough, non-metallic surface under a uniformly white sky.  With
    [lit = false] the active light count is 0. *)
Definition demoData (lit : bool) : ExternalData R :=
  mkExternalData (mkFloat4 1 1 1 1) 0.5 (mkFloat3 0 0 1) demoLights 1 0
                 (mkFloat2 0 0) 1%Z (if lit then 4%Z else 0%Z) 2%Z 7%Z 1.

Definition demoTextures : Textures R :=
  mkTextures (fun _ => mkFloat4 0 0 0 1) (fun _ => mkFloat4 0.5 0.5 1 1)
             (fun _ => mkFloat4 0.5 0.5 0.5 1) (fun _ => mkFloat4 0 0 0 1)
             (fun _ _ => 1) (fun _ _ => 1) (fun _ _ => mkFloat4 1 1 1 1).

(** A pixel at the origin that faces the camera; in cascade 0 its shadow map
    coordinates are (0.005, 0.5). *)
Definition demoPixel : VertexToPixel R :=
  mkVertexToPixel (mkFloat4 0 0 0 1) (mkFloat2 0 0) (mkFloat3 0 0 1)
                  (mkFloat3 1 0 0) (mkFloat3 0 0 0)
                  (fun k => if (k =? 0)%Z then mkFloat4 (-0.99) 0 0.5 1
                            else mkFloat4 0 0 0.25 1)
                  (fun _ => mkFloat4 0 0 0.5 1).

Definition demoSurface : @Surface R :=
  surfaceOf (demoData true) demoTextures demoPixel.

Local Close Scope R_scope.

(** * Properties that hold for every arithmetic *)

Lemma zrange_succ (n : Z) : (0 <= n)%Z -> zrange (n + 1) = zrange n ++ [n].
Proof.
  intros Hn. unfold zrange.
  replace (Z.to_nat (n + 1)) with (S (Z.to_nat n)) by lia.
  rewrite seq_S, map_app. simpl. now rewrite Z2Nat.id.
Qed.

Lemma zrange_nonpos (n : Z) : (n <= 0)%Z -> zrange n = [].
Proof.
  intros Hn. unfold zrange. now replace (Z.to_nat n) with 0%nat by lia.
Qed.

Lemma in_zrange (n j : Z) : In j (zrange n) <-> (0 <= j < n)%Z.
Proof.
  unfold zrange. rewrite in_map_iff. split.
  - intros [k [<- Hk]]. apply in_seq in Hk. lia.
  - intros Hj. exists (Z.to_nat j). split; [lia|]. apply in_seq. lia.
Qed.

Lemma wrap32_small (z : Z) :
  (- 2147483648 <= z < 2147483648)%Z -> wrap32 z = z.
Proof.
  intros Hz. unfold wrap32.
  change (2 ^ 31)%Z with 2147483648%Z. change (2 ^ 32)%Z with 4294967296%Z.
  rewrite Z.mod_small; lia.
Qed.

Section LoopFacts.
Context {F : Type} `{Scalar F}.
Variable sd : ShadowDecls F.

Lemma cubeFaceStep_index (light : Light F) (p : float3 F) (st : F * Z) (j : Z) :
  snd (cubeFaceStep sd light p st j) = j \/
  snd (cubeFaceStep sd light p st j) = snd st.
Proof.
  unfold cubeFaceStep. destruct (castsShadows light); [|now right].
  destruct st as [m d]. simpl.
  destruct (fleb m _); [now left | now right].
Qed.

Lemma cubeFace_fold_index (light : Light F) (p : float3 F) (js : list Z) :
  forall st,
    snd (fold_left (cubeFaceStep sd light p) js st) = snd st \/
    In (snd (fold_left (cubeFaceStep sd light p) js st)) js.
Proof.
  induction js as [|j js IH]; intros st; simpl; [now left|].
  destruct (IH (cubeFaceStep sd light p st j)) as [E|E].
  - rewrite E. destruct (cubeFaceStep_index light p st j) as [E'|E'];
      rewrite E'; auto.
  - auto.
Qed.

Lemma cubeFaceIndex_range (light : Light F) (p : float3 F) :
  (0 <= cubeFaceIndex sd light p <= 5)%Z.
Proof.
  unfold cubeFaceIndex.
  destruct (cubeFace_fold_index light p (zrange 6) (flit 0.0, 0%Z)) as [E|E].
  - rewrite E. simpl. lia.
  - apply in_zrange in E. lia.
Qed.

Variable s : @Surface F.
Variable shadowCascade : F.
Variable shadowWorld : Z -> F.
Variable ls : list (Light F).

Lemma lightLoop_succ (i : Z) :
  (0 <= i)%Z ->
  lightLoop sd s shadowCascade shadowWorld ls (i + 1) =
  lightStep sd s shadowCascade shadowWorld (light_at ls i)
            (lightLoop sd s shadowCascade shadowWorld ls i).
Proof.
  intros Hi. unfold lightLoop.
  now rewrite zrange_succ, fold_left_app by assumption.
Qed.

Lemma shadowCasters_succ (t : Z) (i : Z) :
  (0 <= i)%Z ->
  shadowCasters t ls (i + 1) =
  (shadowCasters t ls i
   + (if (type (light_at ls i) =? t)%Z && castsShadows (light_at ls i)
      then 1 else 0))%Z.
Proof.
  intros Hi. unfold shadowCasters.
  rewrite zrange_succ, filter_app, length_app by assumption. simpl.
  destruct ((type (light_at ls i) =? t)%Z && castsShadows (light_at ls i));
    simpl; lia.
Qed.

Lemma shadowCasters_bounds (t : Z) (i : Z) :
  (0 <= i)%Z -> (0 <= shadowCasters t ls i <= i)%Z.
Proof.
  intros Hi. unfold shadowCasters. split; [lia|].
  pose proof (filter_length_le
                (fun j => (type (light_at ls j) =? t)%Z
                          && castsShadows (light_at ls j)) (zrange i)) as Hle.
  unfold zrange in Hle at 2. rewrite length_map, length_seq in Hle. lia.
Qed.

Lemma slotIndex_succ (i : Z) :
  (0 <= i)%Z ->
  slotIndex ls (i + 1) =
  (slotIndex ls i
   + (if castsShadows (light_at ls i)
      then (if (type (light_at ls i) =? LIGHT_TYPE_POINT)%Z then 6
            else if (type (light_at ls i) =? LIGHT_TYPE_SPOT)%Z then 1
            else 0)
      else 0))%Z.
Proof.
  intros Hi. unfold slotIndex. rewrite !shadowCasters_succ by assumption.
  unfold LIGHT_TYPE_POINT, LIGHT_TYPE_SPOT.
  destruct (castsShadows (light_at ls i));
    destruct (Z.eqb_spec (type (light_at ls i)) 1) as [E|E];
    destruct (Z.eqb_spec (type (light_at ls i)) 2) as [E'|E'];
    cbn [andb]; lia.
Qed.

Lemma slotIndex_bounds (i : Z) :
  (0 <= i)%Z -> (0 <= slotIndex ls i <= 6 * i)%Z.
Proof.
  intros Hi. pattern i. apply natlike_ind; [| |assumption].
  - unfold slotIndex, shadowCasters. rewrite zrange_nonpos by lia. simpl. lia.
  - intros x Hx IH. unfold Z.succ. rewrite slotIndex_succ by assumption.
    destruct (castsShadows (light_at ls x));
      destruct (type (light_at ls x) =? LIGHT_TYPE_POINT)%Z;
      destruct (type (light_at ls x) =? LIGHT_TYPE_SPOT)%Z; lia.
Qed.

(** The slot index the loop carries is the one the spec assigns, as long as
    the loop runs within the bound on the number of lights. *)
Lemma lightLoop_shadowIndex (i : Z) :
  (0 <= i <= MAX_NUM_LIGHTS)%Z ->
  snd (lightLoop sd s shadowCascade shadowWorld ls i) = slotIndex ls i.
Proof.
  intros [Hi Hmax]. revert Hmax. pattern i. apply natlike_ind; [| |assumption].
  - intros _. reflexivity.
  - intros x Hx IH Hmax. unfold Z.succ in *.
    rewrite lightLoop_succ, slotIndex_succ by assumption.
    specialize (IH ltac:(lia)).
    pose proof (slotIndex_bounds x Hx) as Hb.
    unfold MAX_NUM_LIGHTS in Hmax.
    destruct (lightLoop sd s shadowCascade shadowWorld ls x) as [c k].
    simpl in IH. subst k. unfold lightStep.
    unfold LIGHT_TYPE_POINT, LIGHT_TYPE_SPOT, LIGHT_TYPE_DIRECTIONAL.
    destruct (Z.eqb_spec (type (light_at ls x)) 1) as [E1|E1];
      [|destruct (Z.eqb_spec (type (light_at ls x)) 2) as [E2|E2];
        [|destruct (Z.eqb_spec (type (light_at ls x)) 0) as [E0|E0]]];
      destruct (castsShadows (light_at ls x)); simpl;
      unfold int_add; rewrite ?wrap32_small by lia; lia.
Qed.

End LoopFacts.

Section GenericClaims.
Context {F : Type} `{Scalar F}.

(** C1.  In the light loop, the world-space shadow slot in use when light
    [i] is reached is six times the number of preceding shadow-casting point
    lights plus the number of preceding shadow-casting spot lights; it
    advances by 6 past a shadow-casting point light, by 1 past a
    shadow-casting spot light and not at all otherwise; and the light's
    unshadowed colour is added after a multiplication by its shadow factor
    when the light casts shadows and by 1 when it does not.  The factor is
    read at the slot plus the cube face for a point light, at the slot for a
    spot light, and is the cascade sample for a directional light. *)
Theorem light_loop_shadow_slots
  (sd : ShadowDecls F) (s : @Surface F) (shadowCascade : F)
  (shadowWorld : Z -> F) (ls : list (Light F)) (lightCount i : Z) :
  (0 <= i < Z.min lightCount MAX_NUM_LIGHTS)%Z ->
  let light := light_at ls i in
  let before := lightLoop sd s shadowCascade shadowWorld ls i in
  let after := lightLoop sd s shadowCascade shadowWorld ls (i + 1) in
  let times_shadow (amount : F) :=
    scale3 (unshadowed s light)
           (if castsShadows light then amount else flit 1.0) in
  snd before = slotIndex ls i /\
  snd after =
    (slotIndex ls i
     + (if castsShadows light
        then (if (type light =? LIGHT_TYPE_POINT)%Z then 6
              else if (type light =? LIGHT_TYPE_SPOT)%Z then 1 else 0)
        else 0))%Z /\
  (type light = LIGHT_TYPE_POINT ->
   fst after =
   add3 (fst before)
        (times_shadow
           (shadowWorld
              (slotIndex ls i + cubeFaceIndex sd light (s_worldPosition s))%Z))) /\
  (type light = LIGHT_TYPE_SPOT ->
   fst after = add3 (fst before) (times_shadow (shadowWorld (slotIndex ls i)))) /\
  (type light = LIGHT_TYPE_DIRECTIONAL ->
   fst after = add3 (fst before) (times_shadow shadowCascade)).
Proof.
  intros Hi light before after times_shadow.
  assert (Hmax : (i + 1 <= MAX_NUM_LIGHTS)%Z) by lia.
  assert (Hb : snd before = slotIndex ls i).
  { apply lightLoop_shadowIndex. lia. }
  assert (Ha : snd after = slotIndex ls (i + 1)).
  { apply lightLoop_shadowIndex. lia. }
  split; [exact Hb|]. split.
  { rewrite Ha. apply slotIndex_succ. lia. }
  assert (Hstep : after = lightStep sd s shadowCascade shadowWorld light before).
  { apply lightLoop_succ. lia. }
  pose proof (slotIndex_bounds ls i ltac:(lia)) as Hslot.
  pose proof (cubeFaceIndex_range sd light (s_worldPosition s)) as Hface.
  unfold MAX_NUM_LIGHTS in *.
  rewrite Hstep. destruct before as [c k]. simpl in Hb. subst k.
  unfold times_shadow, lightStep.
  unfold LIGHT_TYPE_POINT, LIGHT_TYPE_SPOT, LIGHT_TYPE_DIRECTIONAL.
  repeat split; intros E; rewrite E; simpl.
  - unfold int_add. rewrite wrap32_small by lia. reflexivity.
  - reflexivity.
  - reflexivity.
Qed.

(** C6.  For a light whose type tag is [LIGHT_TYPE_SPOT], [ColorFromLight]
    returns the zero vector, whatever the surface inputs: no case of its
    switch handles the tag and the default returns [float3(0, 0, 0)]. *)
Theorem ColorFromLight_spot_is_zero
  (light : Light F) (normal worldPos view surfaceColor specularColor : float3 F)
  (roughness metallic : F) :
  type light = LIGHT_TYPE_SPOT ->
  ColorFromLight light normal worldPos view surfaceColor specularColor
                 roughness metallic
  = mkFloat3 (flit 0) (flit 0) (flit 0).
Proof.
  intros E. unfold ColorFromLight. rewrite E. reflexivity.
Qed.

Lemma surfaceOf_withPbrMaps_flat
  (ed : ExternalData F) (tex : Textures F) (input : VertexToPixel F)
  (rm mm : float2 F -> float4 F) :
  feqb (roughnessFlat ed) (flit (-1)) = false ->
  feqb (metallicFlat ed) (flit (-1)) = false ->
  surfaceOf ed (withPbrMaps tex rm mm) input = surfaceOf ed tex input.
Proof.
  intros Hr Hm. unfold surfaceOf, surfaceRoughness, surfaceMetallic.
  rewrite Hr, Hm. reflexivity.
Qed.

(** C8.  Roughness and metallic are each selected, not blended: when the
    flat uniform compares equal to the sentinel -1 the value is the red
    channel of the corresponding map at the transformed texture coordinates,
    and for any other flat value it is the flat uniform itself; roughness is
    then raised to at least [MIN_ROUGHNESS].  With both flat values away from
    the sentinel the two maps have no influence on the pixel. *)
Theorem roughness_metallic_selector
  (sd : ShadowDecls F) (ed : ExternalData F) (tex : Textures F)
  (input : VertexToPixel F) :
  let uv1 := transformUV ed (uv input) in
  let s := surfaceOf ed tex input in
  (feqb (roughnessFlat ed) (flit (-1)) = true ->
   s_roughness s = fmax (x4 (RoughnessMap tex uv1)) MIN_ROUGHNESS) /\
  (feqb (roughnessFlat ed) (flit (-1)) = false ->
   s_roughness s = fmax (roughnessFlat ed) MIN_ROUGHNESS) /\
  (feqb (metallicFlat ed) (flit (-1)) = true ->
   s_metallic s = x4 (MetallicMap tex uv1)) /\
  (feqb (metallicFlat ed) (flit (-1)) = false ->
   s_metallic s = metallicFlat ed) /\
  (feqb (roughnessFlat ed) (flit (-1)) = false ->
   feqb (metallicFlat ed) (flit (-1)) = false ->
   forall rm mm : float2 F -> float4 F,
     main sd ed (withPbrMaps tex rm mm) input = main sd ed tex input).
Proof.
  intros uv1 s. subst s uv1.
  unfold surfaceOf, surfaceRoughness, surfaceMetallic. simpl.
  repeat split; intros E; try (rewrite E; reflexivity).
  intros E' rm mm. unfold main, directLighting.
  rewrite (surfaceOf_withPbrMaps_flat ed tex input rm mm E E').
  reflexivity.
Qed.

Lemma surfaceOf_sameSamples
  (ed : ExternalData F) (t1 t2 : Textures F) (input : VertexToPixel F) :
  sameSamplesAt (transformUV ed (uv input)) t1 t2 ->
  surfaceOf ed t1 input = surfaceOf ed t2 input.
Proof.
  intros (Ha & Hn & Hr & Hm & _).
  unfold surfaceOf, surfaceNormal, surfaceRoughness, surfaceMetallic.
  rewrite Ha, Hn, Hr, Hm. reflexivity.
Qed.


(** C5, as the code has it.  The accumulated direct lighting is
    gamma-encoded; the indirect diffuse sample, multiplied by the
    gamma-encoded surface colour (the decoded albedo times the colour tint)
    and scaled by the indirect intensity factor, is added; the sum is blended
    with the reflection sample, the weight being the Fresnel term at the view
    vector and the surface normal. *)
Theorem final_composite_order
  (sd : ShadowDecls F) (ed : ExternalData F) (tex : Textures F)
  (input : VertexToPixel F) :
  let s := surfaceOf ed tex input in
  let direct := directLighting sd ed tex input in
  let lit :=
    add3 (LightenToGamma direct)
         (scale3 (mul3 (indirectDiffuseOf ed tex s)
                       (LightenToGamma (s_surfaceColor s)))
                 (indirectLightIntensity ed)) in
  let c :=
    lerp3 lit (reflectColorOf ed tex s)
          (Fresnel (s_view s) (s_normal s) (s_specularColor s)) in
  main sd ed tex input = mkFloat4 (x3 c) (y3 c) (z3 c) (flit 1) /\
  s_surfaceColor s
  = mul3 (DarkenToGamma (rgb (Albedo tex (transformUV ed (uv input)))))
         (rgb (colorTint ed)).
Proof.
  intros s direct lit c. subst c lit direct s. split.
  - unfold main, composite. reflexivity.
  - unfold surfaceOf. reflexivity.
Qed.

End GenericClaims.

Section UnknownLightType.
Context {F : Type} `{Scalar F}.
Variable sd : ShadowDecls F.
Variable s : @Surface F.
Variable shadowCascade : F.
Variable shadowWorld : Z -> F.

Lemma lightStep_unknown (light : Light F) (st : float3 F * Z) :
  type light <> LIGHT_TYPE_DIRECTIONAL ->
  type light <> LIGHT_TYPE_POINT ->
  type light <> LIGHT_TYPE_SPOT ->
  lightStep sd s shadowCascade shadowWorld light st = st.
Proof.
  intros Hd Hp Hs. unfold lightStep. destruct st as [c k].
  apply Z.eqb_neq in Hd, Hp, Hs. now rewrite Hp, Hs, Hd.
Qed.

Lemma lightLoop_ext (l1 l2 : list (Light F)) (n : Z) :
  (forall j, (0 <= j < n)%Z -> light_at l1 j = light_at l2 j) ->
  lightLoop sd s shadowCascade shadowWorld l1 n =
  lightLoop sd s shadowCascade shadowWorld l2 n.
Proof.
  destruct (Z.le_gt_cases 0 n) as [Hn|Hn].
  - pattern n. apply natlike_ind; [| |assumption].
    + intros _. reflexivity.
    + intros x Hx IH Hext. unfold Z.succ in *.
      rewrite !lightLoop_succ by assumption.
      rewrite IH by (intros j Hj; apply Hext; lia).
      now rewrite Hext by lia.
  - intros _. unfold lightLoop. now rewrite zrange_nonpos by lia.
Qed.

Lemma light_at_in_range (ls : list (Light F)) (i : Z) :
  type (light_at ls i) <> LIGHT_TYPE_DIRECTIONAL ->
  (Z.to_nat i < List.length ls)%nat.
Proof.
  intros Ht. destruct (Nat.lt_ge_cases (Z.to_nat i) (List.length ls)) as [Hlt|Hge];
    [assumption|].
  exfalso. apply Ht. unfold light_at. now rewrite nth_overflow.
Qed.

Lemma light_at_removeLight_before (ls : list (Light F)) (i j : Z) :
  (0 <= j < i)%Z -> (Z.to_nat i < List.length ls)%nat ->
  light_at (removeLight ls i) j = light_at ls j.
Proof.
  intros Hj Hi. unfold light_at, removeLight.
  rewrite app_nth1 by (rewrite length_firstn; lia).
  rewrite nth_firstn.
  destruct (Nat.ltb_spec (Z.to_nat j) (Z.to_nat i)); [reflexivity | lia].
Qed.

Lemma light_at_removeLight_after (ls : list (Light F)) (i j : Z) :
  (0 <= i <= j)%Z -> (Z.to_nat i < List.length ls)%nat ->
  light_at (removeLight ls i) j = light_at ls (j + 1).
Proof.
  intros Hj Hi. unfold light_at, removeLight.
  rewrite app_nth2 by (rewrite length_firstn; lia).
  rewrite length_firstn, nth_skipn. f_equal. lia.
Qed.

(** From the removed light on, the loop over the shortened array is one
    iteration behind the loop over the full array. *)
Lemma lightLoop_removeLight (ls : list (Light F)) (i : Z) :
  (0 <= i)%Z ->
  type (light_at ls i) <> LIGHT_TYPE_DIRECTIONAL ->
  type (light_at ls i) <> LIGHT_TYPE_POINT ->
  type (light_at ls i) <> LIGHT_TYPE_SPOT ->
  forall d, (0 <= d)%Z ->
    lightLoop sd s shadowCascade shadowWorld ls (i + 1 + d) =
    lightLoop sd s shadowCascade shadowWorld (removeLight ls i) (i + d).
Proof.
  intros Hi Hd Hp Hs.
  pose proof (light_at_in_range ls i Hd) as Hlen.
  intros d Hd0. pattern d. apply natlike_ind; [| |assumption].
  - rewrite !Z.add_0_r, lightLoop_succ by assumption.
    rewrite lightStep_unknown by assumption.
    apply lightLoop_ext. intros j Hj. symmetry.
    now apply light_at_removeLight_before.
  - intros x Hx IH. unfold Z.succ.
    replace (i + 1 + (x + 1))%Z with ((i + 1 + x) + 1)%Z by lia.
    replace (i + (x + 1))%Z with ((i + x) + 1)%Z by lia.
    rewrite !lightLoop_succ by lia. rewrite IH.
    rewrite light_at_removeLight_after by (assumption || lia).
    now replace (i + x + 1)%Z with (i + 1 + x)%Z by lia.
Qed.

End UnknownLightType.

Section UnknownLightTypeClaim.
Context {F : Type} `{Scalar F}.

Lemma surfaceOf_withLights
  (ed : ExternalData F) (tex : Textures F) (input : VertexToPixel F)
  (ls : list (Light F)) (n : Z) :
  surfaceOf (withLights ed ls n) tex input = surfaceOf ed tex input.
Proof. reflexivity. Qed.

(** C10.  A light the loop visits whose type tag is none of
    [LIGHT_TYPE_DIRECTIONAL], [LIGHT_TYPE_POINT] and [LIGHT_TYPE_SPOT] leaves
    the running colour and the shadow slot index as they are, and the pixel's
    colour is the one computed from the array without that light and with
    the active light count [min(lightCount, MAX_NUM_LIGHTS)] reduced by one,
    which is [lightCount - 1] when [lightCount] is within the bound. *)
Theorem unknown_light_type_is_skipped
  (sd : ShadowDecls F) (ed : ExternalData F) (tex : Textures F)
  (input : VertexToPixel F) (i : Z) :
  let numLights := Z.min (lightCount ed) MAX_NUM_LIGHTS in
  let light := light_at (lights ed) i in
  (0 <= i < numLights)%Z ->
  type light <> LIGHT_TYPE_DIRECTIONAL ->
  type light <> LIGHT_TYPE_POINT ->
  type light <> LIGHT_TYPE_SPOT ->
  (forall (s : @Surface F) (shadowCascade : F) (shadowWorld : Z -> F)
          (st : float3 F * Z),
     lightStep sd s shadowCascade shadowWorld light st = st) /\
  main sd ed tex input
  = main sd (withLights ed (removeLight (lights ed) i) (numLights - 1)) tex input /\
  ((lightCount ed <= MAX_NUM_LIGHTS)%Z ->
   main sd ed tex input
   = main sd (withLights ed (removeLight (lights ed) i) (lightCount ed - 1))
          tex input).
Proof.
  intros numLights light Hi Hd Hp Hs.
  assert (Hmain :
    main sd ed tex input
    = main sd (withLights ed (removeLight (lights ed) i) (numLights - 1))
           tex input);
    [|split; [|split; [exact Hmain|]]].
  3: { intros Hle. rewrite Hmain. subst numLights.
       now rewrite Z.min_l by assumption. }
  2: { intros s sc sw st. now apply lightStep_unknown. }
  - assert (Hdirect :
      directLighting sd
        (withLights ed (removeLight (lights ed) i) (numLights - 1)) tex input
      = directLighting sd ed tex input).
    { unfold directLighting.
      rewrite (surfaceOf_withLights ed tex input).
      cbn [withLights lights lightCount cameraPosition shadowCountCascade
           shadowCountWorld].
      fold numLights.
      replace (Z.min (numLights - 1) MAX_NUM_LIGHTS)
        with (i + (numLights - 1 - i))%Z by (subst numLights; lia).
      rewrite <- (lightLoop_removeLight sd _ _ _ (lights ed) i)
        by (assumption || lia).
      now replace (i + 1 + (numLights - 1 - i))%Z with numLights by lia. }
    unfold main. rewrite Hdirect, (surfaceOf_withLights ed tex input).
    reflexivity.
Qed.

End UnknownLightTypeClaim.

(** * Properties of the exact-arithmetic instance *)

Ltac real_ops :=
  cbn [fadd fsub fmul fdiv fneg fmax fmin fpow fsqrt feqb fltb fleb flit
       fofint ftoint Scalar_R] in *;
  unfold Q2R in *; cbn [Qnum Qden] in *.

Section RealClaims.
Local Open Scope R_scope.

Lemma saturate_bounds (r : R) : 0 <= saturate r <= 1.
Proof.
  unfold saturate. real_ops.
  unfold Rmin, Rmax.
  destruct (Rle_dec r (0 * / 1)); destruct (Rle_dec _ (1 * / 1)); lra.
Qed.

Lemma saturate_of_unit_interval (r : R) : 0 <= r <= 1 -> saturate r = r.
Proof.
  intros Hr. unfold saturate. real_ops.
  rewrite Rmax_left by lra. rewrite Rmin_left by lra. reflexivity.
Qed.

Lemma saturate_of_nonpositive (r : R) : r <= 0 -> saturate r = 0.
Proof.
  intros Hr. unfold saturate. real_ops.
  rewrite Rmax_right by lra. rewrite Rmin_left by lra. lra.
Qed.


Lemma SpecDistribution_a2_floor (roughness : R) :
  0.0000001 <= SpecDistribution_a2 roughness.
Proof.
  unfold SpecDistribution_a2, MIN_ROUGHNESS. real_ops.
  eapply Rle_trans; [|apply Rmax_r]. lra.
Qed.

Lemma SpecDistribution_denomToSquare_floor (t a2 : R) :
  0 <= t <= 1 -> 0 < a2 -> Rmin 1 a2 <= t * t * (a2 - 1) + 1.
Proof.
  intros Ht Ha.
  assert (Hu : 0 <= t * t <= 1) by nra.
  generalize dependent (t * t). intros u Hu.
  unfold Rmin. destruct (Rle_dec 1 a2); nra.
Qed.


Lemma Rleb_true (a b : R) : Rleb a b = true <-> a <= b.
Proof. unfold Rleb. destruct (Rle_dec a b); split; intros; (lra || congruence). Qed.

Lemma Rltb_true (a b : R) : Rltb a b = true <-> a < b.
Proof. unfold Rltb. destruct (Rlt_dec a b); split; intros; (lra || congruence). Qed.

Lemma Rltb_false (a b : R) : Rltb a b = false <-> b <= a.
Proof. unfold Rltb. destruct (Rlt_dec a b); split; intros; (lra || congruence). Qed.

Lemma float3_eq (a b c a' b' c' : R) :
  a = a' -> b = b' -> c = c' -> mkFloat3 a b c = mkFloat3 a' b' c'.
Proof. intros -> -> ->. reflexivity. Qed.

Section CubeFace.
Variable sd : ShadowDecls R.
Variable light : Light R.
Variable worldPos : float3 R.
Hypothesis casts : castsShadows light = true.

Lemma cubeFaceStep_casting (maxDot : R) (directionIndex j : Z) :
  cubeFaceStep sd light worldPos (maxDot, directionIndex) j
  = (Rmax (faceAlignment sd light worldPos j) maxDot,
     if Rleb maxDot (faceAlignment sd light worldPos j) then j
     else directionIndex).
Proof. unfold cubeFaceStep. rewrite casts. reflexivity. Qed.

(** The loop keeps the running maximum, and the index of a face that attains
    it once some face has reached the initial value. *)
Lemma cubeFace_fold_max (js : list Z) :
  forall (m : R) (idx : Z),
    let r := fold_left (cubeFaceStep sd light worldPos) js (m, idx) in
    m <= fst r /\
    (forall j, In j js -> faceAlignment sd light worldPos j <= fst r) /\
    ((snd r = idx /\ fst r = m /\
      forall j, In j js -> faceAlignment sd light worldPos j < m) \/
     (In (snd r) js /\ faceAlignment sd light worldPos (snd r) = fst r)).
Proof.
  induction js as [|j js IH]; intros m idx; cbn zeta.
  - simpl. split; [lra|]. split; [intros j []|]. left. repeat split.
    intros j [].
  - cbn [fold_left]. rewrite cubeFaceStep_casting.
    specialize (IH (Rmax (faceAlignment sd light worldPos j) m)
                   (if Rleb m (faceAlignment sd light worldPos j) then j
                    else idx)).
    cbn zeta in IH. destruct IH as (Hle & Hall & Hidx).
    pose proof (Rmax_l (faceAlignment sd light worldPos j) m) as Hl.
    pose proof (Rmax_r (faceAlignment sd light worldPos j) m) as Hr.
    split; [lra|]. split.
    + intros k [<-|Hk]; [lra | now apply Hall].
    + destruct Hidx as [(Hs & Hf & Hlt)|(Hin & Hat)].
      * destruct (Rleb m (faceAlignment sd light worldPos j)) eqn:Hcmp.
        -- right. apply Rleb_true in Hcmp. rewrite Hs, Hf. split; [now left|].
           now rewrite Rmax_left.
        -- assert (Hjm : faceAlignment sd light worldPos j < m).
           { destruct (Rlt_le_dec (faceAlignment sd light worldPos j) m)
               as [Hx|Hx]; [assumption|].
             apply Rleb_true in Hx. congruence. }
           left. rewrite Hs, Hf. rewrite Rmax_right in * by lra.
           repeat split. intros k [<-|Hk]; [assumption | now apply Hlt].
      * right. split; [now right | assumption].
Qed.

Lemma alignment_axis (a : float3 R) (j : Z) :
  cubeFaceDirections sd j = a ->
  faceAlignment sd light worldPos j
  = x3 (normalize (sub3 worldPos (position light))) * x3 a
    + y3 (normalize (sub3 worldPos (position light))) * y3 a
    + z3 (normalize (sub3 worldPos (position light))) * z3 a.
Proof. intros <-. reflexivity. Qed.

Hypothesis table : isCubeFaceTable (cubeFaceDirections sd).

Lemma cubeFaceIndex_maximal :
  forall k, (0 <= k <= 5)%Z ->
    faceAlignment sd light worldPos k
    <= faceAlignment sd light worldPos (cubeFaceIndex sd light worldPos).
Proof.
  intros k Hk. unfold cubeFaceIndex.
  destruct (cubeFace_fold_max (zrange 6) (flit 0.0) 0%Z) as (_ & Hall & Hidx).
  cbn zeta in *.
  destruct Hidx as [(_ & Hf & Hlt)|(_ & Hat)].
  - exfalso. destruct table as [_ Hex].
    destruct (Hex (mkFloat3 1 0 0)) as (jp & Hjp & Ep); [simpl; auto|].
    destruct (Hex (mkFloat3 (-1) 0 0)) as (jn & Hjn & En); [simpl; auto 7|].
    pose proof (Hlt jp ltac:(apply in_zrange; lia)) as Hp.
    pose proof (Hlt jn ltac:(apply in_zrange; lia)) as Hn.
    rewrite (alignment_axis _ _ Ep) in Hp.
    rewrite (alignment_axis _ _ En) in Hn.
    real_ops. cbn [x3 y3 z3] in *. lra.
  - rewrite Hat. apply Hall. apply in_zrange. lia.
Qed.

End CubeFace.


Lemma Rtrunc_IZR (z : Z) : Rtrunc (IZR z) = z.
Proof.
  unfold Rtrunc. destruct (Rle_dec 0 (IZR z)) as [Hz|Hz].
  - symmetry. apply Int_part_spec. split; lra.
  - rewrite <- opp_IZR.
    assert (E : (- z)%Z = Int_part (IZR (- z)))
      by (apply Int_part_spec; split; lra).
    lia.
Qed.

(** With the shadow map coordinates [(u, v)] within 1% of a border, the
    comparison helpers combine to 1. *)
Lemma or_all_border (u v : R) :
  u < 0.01 \/ u > 0.99 \/ v < 0.01 \/ v > 0.99 ->
  or_all (when_lt4 (mkFloat4 u v (flit 0) (flit 0))
                   (mkFloat4 (flit 0.01) (flit 0.01) (flit 0) (flit 0)))
         (when_gt4 (mkFloat4 u v (flit 0) (flit 0))
                   (mkFloat4 (flit 0.99) (flit 0.99) (flit 0) (flit 0)))
  = 1.
Proof.
  intros Hb.
  unfold or_all, any4, when_lt4, when_gt4, when_lt, when_gt, nonzero.
  cbn [x4 y4 z4 w4]. real_ops. unfold Rltb, Reqb.
  repeat match goal with
         | |- context [Rlt_dec ?a ?b] => destruct (Rlt_dec a b)
         | |- context [Req_dec_T ?a ?b] => destruct (Req_dec_T a b)
         end; cbn [negb orb]; try lra.
Qed.

Lemma cascadeBorderStep_advance
  (input : VertexToPixel R) (cascadeIndex numShadowCascade : Z) :
  is_int cascadeIndex -> is_int numShadowCascade ->
  let uv0 := shadowUV (shadowCascadePositions input cascadeIndex) in
  let next := shadowCascadePositions input (cascadeIndex + 1) in
  x2 uv0 < 0.01 \/ x2 uv0 > 0.99 \/ y2 uv0 < 0.01 \/ y2 uv0 > 0.99 ->
  (cascadeIndex + 1 < numShadowCascade)%Z ->
  cascadeBorderStep input cascadeIndex numShadowCascade
  = ((cascadeIndex + 1)%Z, shadowUV next, z4 next / w4 next).
Proof.
  intros Hci Hn uv0 next Hb Hlt. unfold is_int in *.
  unfold cascadeBorderStep. fold uv0.
  rewrite (or_all_border _ _ Hb).
  unfold int_add. rewrite wrap32_small by lia.
  assert (Hv : when_lt (fofint (cascadeIndex + 1)%Z) (fofint numShadowCascade) = 1).
  { unfold when_lt. real_ops. apply IZR_lt in Hlt.
    apply Rltb_true in Hlt. rewrite Hlt. lra. }
  rewrite Hv.
  assert (Hi : ftoint (fadd (fofint cascadeIndex) (fmul (fmul (fofint 1%Z) 1) 1))
               = (cascadeIndex + 1)%Z).
  { real_ops.
    replace (IZR cascadeIndex + 1 * 1 * 1) with (IZR (cascadeIndex + 1))
      by (rewrite plus_IZR; lra).
    apply Rtrunc_IZR. }
  rewrite Hi. reflexivity.
Qed.


(** ** The concrete scene, evaluated *)

Lemma Rpow_zero_base (e : R) : 0 < e -> Rpow 0 e = 0.
Proof.
  intros Hpos. assert (He : e <> 0) by lra. unfold Rpow.
  destruct (Req_dec_T 0 0) as [_|N]; [|contradiction].
  destruct (Req_dec_T e 0); [contradiction | reflexivity].
Qed.

Lemma float2_eq (a b a' b' : R) :
  a = a' -> b = b' -> mkFloat2 a b = mkFloat2 a' b'.
Proof. intros -> ->. reflexivity. Qed.

Lemma normalize_unit (a b c : R) :
  a * a + b * b + c * c = 1 -> normalize (mkFloat3 a b c) = mkFloat3 a b c.
Proof.
  intros Hu. unfold normalize, sdiv3, length, dot. cbn [x3 y3 z3]. real_ops.
  rewrite Hu, sqrt_1. apply float3_eq; field.
Qed.

Lemma demo_surface (lit : bool) :
  surfaceOf (demoData lit) demoTextures demoPixel
  = mkSurface (mkFloat3 0 0 1) (mkFloat3 0 0 0) (mkFloat3 0 0 1)
              (mkFloat3 0 0 0) (mkFloat3 0.04 0.04 0.04) 0.5 0.
Proof.
  unfold surfaceOf.
  assert (Hn : surfaceNormal demoTextures demoPixel
                 (transformUV (demoData lit) (uv demoPixel))
               = mkFloat3 0 0 1).
  { unfold surfaceNormal.
    cbn [demoPixel normal tangent demoTextures NormalMap].
    rewrite (normalize_unit 0 0 1) by lra.
    rewrite (normalize_unit 1 0 0) by lra.
    replace (sub3 (mkFloat3 1 0 0)
                  (scale3 (mkFloat3 0 0 1) (dot (mkFloat3 1 0 0) (mkFloat3 0 0 1))))
      with (mkFloat3 1 0 0 : float3 R)
      by (unfold sub3, scale3, mul3, rrr, dot; cbn [x3 y3 z3];
          apply float3_eq; real_ops; lra).
    rewrite (normalize_unit 1 0 0) by lra.
    match goal with
    | |- normalize ?v = _ => replace v with (mkFloat3 0 0 1 : float3 R)
    end.
    - apply normalize_unit; lra.
    - unfold mul3x3, cross, sub3, scale3, mul3, rrr, rgb;
        cbn [x3 y3 z3 x4 y4 z4]; apply float3_eq; real_ops; lra. }
  rewrite Hn.
  assert (Hv : normalize (sub3 (cameraPosition (demoData lit))
                               (worldPosition demoPixel))
               = mkFloat3 0 0 1).
  { cbn [demoData cameraPosition demoPixel worldPosition].
    replace (sub3 (mkFloat3 0 0 1) (mkFloat3 0 0 0))
      with (mkFloat3 0 0 1 : float3 R)
      by (unfold sub3; cbn [x3 y3 z3]; apply float3_eq; real_ops; lra).
    apply normalize_unit; lra. }
  rewrite Hv.
  assert (Ha : DarkenToGamma
                 (rgb (Albedo demoTextures
                         (transformUV (demoData lit) (uv demoPixel))))
               = mkFloat3 0 0 0).
  { unfold DarkenToGamma, pow3.
    cbn [demoTextures Albedo rgb x4 y4 z4 x3 y3 z3]. real_ops.
    rewrite Rpow_zero_base by lra. reflexivity. }
  rewrite Ha.
  assert (Hr : surfaceRoughness (demoData lit) demoTextures
                 (transformUV (demoData lit) (uv demoPixel)) = 0.5).
  { unfold surfaceRoughness, MIN_ROUGHNESS. cbn [demoData roughnessFlat].
    real_ops. unfold Reqb. destruct (Req_dec_T _ _); [lra|].
    rewrite Rmax_left by lra. reflexivity. }
  rewrite Hr.
  assert (Hm : surfaceMetallic (demoData lit) demoTextures
                 (transformUV (demoData lit) (uv demoPixel)) = 0).
  { unfold surfaceMetallic. cbn [demoData metallicFlat]. real_ops.
    unfold Reqb. destruct (Req_dec_T _ _); [lra|]. reflexivity. }
  rewrite Hm.
  cbn [demoPixel worldPosition demoData colorTint rgb x4 y4 z4].
  f_equal.
  - unfold mul3. cbn [x3 y3 z3]. apply float3_eq; real_ops; lra.
  - unfold lerp3, lerp, rrr, F0_NON_METAL. cbn [x3 y3 z3].
    apply float3_eq; real_ops; lra.
Qed.

Lemma demo_unlit_direct :
  directLighting demoDecls (demoData false) demoTextures demoPixel
  = mkFloat3 0 0 0.
Proof.
  unfold directLighting. cbn [demoData lightCount lights].
  unfold lightLoop.
  cbn [Z.min Z.compare zrange Z.to_nat seq map fold_left fst float3_zero].
  unfold float3_zero. apply float3_eq; real_ops; lra.
Qed.

(** The red channel of the demo pixel, as the shader computes it and as the
    spec words the composite. *)
Lemma demo_main_red :
  x4 (main demoDecls (demoData false) demoTextures demoPixel) = 0.04.
Proof.
  unfold main. rewrite demo_surface, demo_unlit_direct.
  unfold composite, indirectDiffuseOf, reflectColorOf,
    DiffuseEnergyConserve, LightenToGamma, Fresnel, pow3, saturate3.
  cbn [x4 s_view s_normal s_specularColor s_surfaceColor s_metallic s_roughness
       demoTextures SkyCubeMap demoData indirectLightIntensity].
  unfold lerp3, lerp, add3, scale3, mul3, sub3, rrr, rgb, dot.
  cbn [x3 y3 z3 x4 y4 z4].
  rewrite (saturate_of_unit_interval
             (fadd (fadd (fmul 0 0) (fmul 0 0)) (fmul 1 1)))
    by (real_ops; lra).
  rewrite (saturate_of_unit_interval 0.04) by lra.
  real_ops.
  replace (1 * / 1 - (0 * 0 + 0 * 0 + 1 * 1)) with 0 by lra.
  rewrite (Rpow_zero_base (5 * / 1)) by lra.
  rewrite (Rpow_zero_base (1 * / 1 / (22 * / 10)))
    by (apply Rdiv_lt_0_compat; lra).
  lra.
Qed.

Lemma demo_mainAsWorded_red :
  x4 (mainAsWorded demoDecls (demoData false) demoTextures demoPixel) = 0.9616.
Proof.
  unfold mainAsWorded. rewrite demo_surface, demo_unlit_direct.
  unfold compositeAsWorded, indirectDiffuseOf, reflectColorOf,
    DiffuseEnergyConserve, LightenToGamma, Fresnel, pow3, saturate3.
  cbn [x4 s_view s_normal s_specularColor s_surfaceColor s_metallic s_roughness
       demoTextures SkyCubeMap demoData indirectLightIntensity].
  unfold lerp3, lerp, add3, scale3, mul3, sub3, rrr, rgb, dot.
  cbn [x3 y3 z3 x4 y4 z4].
  rewrite (saturate_of_unit_interval
             (fadd (fadd (fmul 0 0) (fmul 0 0)) (fmul 1 1)))
    by (real_ops; lra).
  rewrite (saturate_of_unit_interval 0.04) by lra.
  real_ops.
  replace (1 * / 1 - (0 * 0 + 0 * 0 + 1 * 1)) with 0 by lra.
  rewrite (Rpow_zero_base (5 * / 1)) by lra.
  rewrite (Rpow_zero_base (1 * / 1 / (22 * / 10)))
    by (apply Rdiv_lt_0_compat; lra).
  lra.
Qed.

(** C5, as worded, fails: on a black surface under a white sky and no
    light, the shader's indirect term vanishes with the surface colour
    (red channel 0.04, the reflection alone), while the worded composite
    adds the indirect diffuse sample scaled by the intensity factor only
    (red channel 0.9616). *)
Lemma final_composite_not_as_worded :
  main demoDecls (demoData false) demoTextures demoPixel
  <> mainAsWorded demoDecls (demoData false) demoTextures demoPixel.
Proof.
  intros E. apply (f_equal x4) in E.
  rewrite demo_main_red, demo_mainAsWorded_red in E. lra.
Qed.

End RealClaims.

(** * The statements at the concrete scene *)

Section Witnesses.
Local Open Scope R_scope.

Lemma d3dCubeFaces_table : isCubeFaceTable d3dCubeFaces.
Proof.
  split.
  - intros j Hj.
    assert (Ej : j = 0%Z \/ j = 1%Z \/ j = 2%Z \/ j = 3%Z \/ j = 4%Z \/ j = 5%Z)
      by lia.
    destruct Ej as [->|[->|[->|[->|[->| ->]]]]]; simpl; auto 7.
  - intros a Ha. simpl in Ha.
    destruct Ha as [<-|[<-|[<-|[<-|[<-|[<-|[]]]]]]].
    + exists 0%Z. split; [lia | reflexivity].
    + exists 1%Z. split; [lia | reflexivity].
    + exists 2%Z. split; [lia | reflexivity].
    + exists 3%Z. split; [lia | reflexivity].
    + exists 4%Z. split; [lia | reflexivity].
    + exists 5%Z. split; [lia | reflexivity].
Qed.

(** At the demo lights (a shadow-casting point light, a light of unknown
    type, a shadow-casting spot light, the sun), the spot light reads world
    slot 6 and leaves the slot index at 7. *)
Lemma light_loop_shadow_slots_witness :
  (0 <= 2 < Z.min 4 MAX_NUM_LIGHTS)%Z /\
  snd (lightLoop demoDecls demoSurface 1 (fun _ => 1) demoLights 2) = 6%Z /\
  snd (lightLoop demoDecls demoSurface 1 (fun _ => 1) demoLights (2 + 1)) = 7%Z.
Proof.
  assert (Hi : (0 <= 2 < Z.min 4 MAX_NUM_LIGHTS)%Z)
    by (unfold MAX_NUM_LIGHTS; lia).
  split; [exact Hi|].
  destruct (light_loop_shadow_slots demoDecls demoSurface 1 (fun _ => 1)
              demoLights 4 2 Hi) as (Hb & Ha & _).
  split; [rewrite Hb | rewrite Ha]; reflexivity.
Defined.

Lemma ColorFromLight_spot_is_zero_witness :
  type demoSpotCaster = LIGHT_TYPE_SPOT /\
  unshadowed demoSurface demoSpotCaster = mkFloat3 (flit 0) (flit 0) (flit 0).
Proof.
  split; [reflexivity|].
  apply ColorFromLight_spot_is_zero. reflexivity.
Defined.

Lemma distance_axis_y (a b : R) :
  a <= b -> distance (mkFloat3 0 a 0) (mkFloat3 0 b 0) = b - a.
Proof.
  intros Hab. unfold distance, length, dot, sub3. cbn [x3 y3 z3]. real_ops.
  replace ((0 - 0) * (0 - 0) + (b - a) * (b - a) + (0 - 0) * (0 - 0))
    with ((b - a) * (b - a)) by lra.
  apply sqrt_square. lra.
Qed.


Lemma unknown_light_type_is_skipped_witness :
  (0 <= 1 < Z.min (lightCount (demoData true)) MAX_NUM_LIGHTS)%Z /\
  type (light_at (lights (demoData true)) 1) = 7%Z /\
  main demoDecls (demoData true) demoTextures demoPixel
  = main demoDecls
         (withLights (demoData true) [demoPointCaster; demoSpotCaster; demoSun] 3)
         demoTextures demoPixel.
Proof.
  assert (Hi : (0 <= 1 < Z.min (lightCount (demoData true)) MAX_NUM_LIGHTS)%Z)
    by (cbn [demoData lightCount]; unfold MAX_NUM_LIGHTS; lia).
  assert (Ht : type (light_at (lights (demoData true)) 1) = 7%Z) by reflexivity.
  split; [exact Hi|]. split; [exact Ht|].
  assert (Hd : type (light_at (lights (demoData true)) 1)
               <> LIGHT_TYPE_DIRECTIONAL)
    by (rewrite Ht; unfold LIGHT_TYPE_DIRECTIONAL; lia).
  assert (Hp : type (light_at (lights (demoData true)) 1) <> LIGHT_TYPE_POINT)
    by (rewrite Ht; unfold LIGHT_TYPE_POINT; lia).
  assert (Hs : type (light_at (lights (demoData true)) 1) <> LIGHT_TYPE_SPOT)
    by (rewrite Ht; unfold LIGHT_TYPE_SPOT; lia).
  exact (proj1 (proj2 (unknown_light_type_is_skipped
                         demoDecls (demoData true) demoTextures demoPixel 1
                         Hi Hd Hp Hs))).
Defined.

Lemma demo_cascade0_uv :
  shadowUV (shadowCascadePositions demoPixel 0) = mkFloat2 0.005 0.5.
Proof.
  unfold shadowUV. cbn [demoPixel shadowCascadePositions Z.eqb x4 y4 z4 w4 x2 y2].
  apply float2_eq; real_ops; lra.
Qed.



End Witnesses.

(** * Further properties of the shader code *)

(** ** The shadow loops and the light loop, for every arithmetic *)

Section LocalArrays.
Context {A : Type}.

(** A loop that writes [f i] to element [i] for every [i] of [l]. *)
Lemma fold_upd_lookup (f : Z -> A) (l : list Z) :
  forall (arr : Z -> A) (k : Z),
    fold_left (fun a i => upd a i (f i)) l arr k
    = if existsb (Z.eqb k) l then f k else arr k.
Proof.
  induction l as [|i l IH]; intros arr k; simpl; [reflexivity|].
  rewrite IH. unfold upd.
  destruct (Z.eqb_spec k i) as [->|Hne]; simpl.
  - now destruct (existsb (Z.eqb i) l).
  - reflexivity.
Qed.

Lemma existsb_zrange (n k : Z) :
  existsb (Z.eqb k) (zrange n) = ((0 <=? k) && (k <? n))%Z.
Proof.
  destruct (existsb (Z.eqb k) (zrange n)) eqn:E.
  - apply existsb_exists in E. destruct E as (j & Hj & Ej).
    apply Z.eqb_eq in Ej. subst j. apply in_zrange in Hj.
    symmetry. apply andb_true_iff. split; [apply Z.leb_le | apply Z.ltb_lt]; lia.
  - symmetry. apply not_true_is_false. intros Hk.
    apply andb_true_iff in Hk. destruct Hk as [H0 H1].
    apply Z.leb_le in H0. apply Z.ltb_lt in H1.
    assert (Hin : In k (zrange n)) by (apply in_zrange; lia).
    assert (Hex : existsb (Z.eqb k) (zrange n) = true).
    { apply existsb_exists. exists k. split; [assumption | apply Z.eqb_refl]. }
    congruence.
Qed.

End LocalArrays.

Section FurtherLoopFacts.
Context {F : Type} `{Scalar F}.

(** The first shadow loop fills its two arrays independently. *)
Lemma worldShadowCoords_split (input : VertexToPixel F) (l : list Z) :
  forall (d : Z -> F) (u : Z -> float2 F),
    fold_left
      (fun (st : (Z -> F) * (Z -> float2 F)) (i : Z) =>
         let '(depthFromWorldLights, shadowWorldUVs) := st in
         let depthFromWorldLights :=
           upd depthFromWorldLights i
               (fdiv (z4 (shadowWorldPositions input i))
                     (w4 (shadowWorldPositions input i))) in
         let shadowWorldUVs :=
           upd shadowWorldUVs i (shadowUV (shadowWorldPositions input i)) in
         (depthFromWorldLights, shadowWorldUVs))
      l (d, u)
    = (fold_left
         (fun a i => upd a i (fdiv (z4 (shadowWorldPositions input i))
                                   (w4 (shadowWorldPositions input i)))) l d,
       fold_left
         (fun a i => upd a i (shadowUV (shadowWorldPositions input i))) l u).
Proof.
  induction l as [|i l IH]; intros d u; simpl; [reflexivity|]. apply IH.
Qed.

(** X1.  After the two loops over the world-space shadow maps, element [i]
    of [shadowAmountWorld] holds, for [0 <= i < numShadowWorld], the
    comparison sample of slice [i] of [ShadowMapsWorld] at the flipped
    texture coordinates of [shadowWorldPositions[i]] against its depth
    [z / w]; every other element is left as it was declared, unwritten. *)
Theorem shadowAmountWorld_written_range
  (sd : ShadowDecls F) (tex : Textures F) (input : VertexToPixel F)
  (numShadowWorld i : Z) :
  shadowAmountWorld sd tex input numShadowWorld i
  = if ((0 <=? i) && (i <? numShadowWorld))%Z
    then worldShadowSample tex input i
    else uninitialized sd i.
Proof.
  unfold shadowAmountWorld, worldShadowCoords.
  rewrite worldShadowCoords_split. cbv iota.
  rewrite fold_upd_lookup, existsb_zrange.
  destruct ((0 <=? i) && (i <? numShadowWorld))%Z eqn:E; [|reflexivity].
  rewrite !fold_upd_lookup, !existsb_zrange, E. reflexivity.
Qed.

Lemma surfaceOf_withShadowMaps
  (ed : ExternalData F) (tex : Textures F) (input : VertexToPixel F)
  (c w : float3 F -> F -> F) :
  surfaceOf ed (withShadowMaps tex c w) input = surfaceOf ed tex input.
Proof. reflexivity. Qed.

(** A light that casts no shadows reads neither shadow amount, and no cube
    face. *)
Lemma lightStep_no_caster (sd sd' : ShadowDecls F) (s : @Surface F)
  (sc sc' : F) (sw sw' : Z -> F) (light : Light F) (st : float3 F * Z) :
  castsShadows light = false ->
  lightStep sd s sc sw light st = lightStep sd' s sc' sw' light st.
Proof.
  intros Hc. unfold lightStep. destruct st as [c k]. rewrite Hc. reflexivity.
Qed.

Lemma lightLoop_no_caster (sd sd' : ShadowDecls F) (s : @Surface F)
  (sc sc' : F) (sw sw' : Z -> F) (ls : list (Light F)) (n : Z) :
  (forall j, (0 <= j < n)%Z -> castsShadows (light_at ls j) = false) ->
  lightLoop sd s sc sw ls n = lightLoop sd' s sc' sw' ls n.
Proof.
  destruct (Z.le_gt_cases 0 n) as [Hn|Hn].
  - pattern n. apply natlike_ind; [| |assumption].
    + intros _. reflexivity.
    + intros x Hx IH Hc. unfold Z.succ in *.
      rewrite !lightLoop_succ by assumption.
      rewrite IH by (intros j Hj; apply Hc; lia).
      apply lightStep_no_caster. apply Hc. lia.
  - intros _. unfold lightLoop. now rewrite zrange_nonpos by lia.
Qed.

Lemma directLighting_unlit
  (sd : ShadowDecls F) (ed : ExternalData F) (tex : Textures F)
  (input : VertexToPixel F) :
  (lightCount ed <= 0)%Z -> directLighting sd ed tex input = float3_zero.
Proof.
  intros Hn. unfold directLighting, lightLoop.
  rewrite zrange_nonpos; [reflexivity|]. unfold MAX_NUM_LIGHTS. lia.
Qed.

(** X2.  Only the first [min(lightCount, MAX_NUM_LIGHTS)] entries of the
    light array reach the pixel: a constant buffer with another array and
    another count gives the same colour as soon as the two capped counts are
    equal and the arrays agree below the capped count.  In particular a count
    above [MAX_NUM_LIGHTS] acts as [MAX_NUM_LIGHTS]. *)
Theorem lights_past_the_count_are_ignored
  (sd : ShadowDecls F) (ed : ExternalData F) (tex : Textures F)
  (input : VertexToPixel F) (ls : list (Light F)) (n : Z) :
  Z.min n MAX_NUM_LIGHTS = Z.min (lightCount ed) MAX_NUM_LIGHTS ->
  (forall j, (0 <= j < Z.min (lightCount ed) MAX_NUM_LIGHTS)%Z ->
             light_at ls j = light_at (lights ed) j) ->
  main sd (withLights ed ls n) tex input = main sd ed tex input.
Proof.
  intros Hn Hls.
  assert (Hdirect :
    directLighting sd (withLights ed ls n) tex input
    = directLighting sd ed tex input).
  { unfold directLighting. rewrite (surfaceOf_withLights ed tex input).
    cbn [withLights lights lightCount cameraPosition shadowCountCascade
         shadowCountWorld].
    rewrite Hn. f_equal. now apply lightLoop_ext. }
  unfold main. rewrite Hdirect, (surfaceOf_withLights ed tex input).
  reflexivity.
Qed.

(** X3.  When none of the active lights casts shadows, the pixel is the
    same for any contents of the two shadow map arrays and for any shadow
    declarations (cascade selection, array bounds, cube face table). *)
Theorem shadow_maps_unused_without_casters
  (sd sd' : ShadowDecls F) (ed : ExternalData F) (tex : Textures F)
  (input : VertexToPixel F) (c w : float3 F -> F -> F) :
  (forall j, (0 <= j < Z.min (lightCount ed) MAX_NUM_LIGHTS)%Z ->
             castsShadows (light_at (lights ed) j) = false) ->
  main sd' ed (withShadowMaps tex c w) input = main sd ed tex input.
Proof.
  intros Hc.
  assert (Hdirect :
    directLighting sd' ed (withShadowMaps tex c w) input
    = directLighting sd ed tex input).
  { unfold directLighting. rewrite surfaceOf_withShadowMaps. f_equal.
    now apply lightLoop_no_caster. }
  unfold main. rewrite Hdirect, surfaceOf_withShadowMaps. reflexivity.
Qed.

(** X4.  With an active light count of zero or less the body of the light
    loop never runs: the direct lighting is black, and the pixel depends
    neither on the light array nor on the shadow maps and declarations. *)
Theorem no_active_light_no_direct_lighting
  (sd : ShadowDecls F) (ed : ExternalData F) (tex : Textures F)
  (input : VertexToPixel F) :
  (lightCount ed <= 0)%Z ->
  directLighting sd ed tex input = float3_zero /\
  forall (sd' : ShadowDecls F) (ls : list (Light F))
         (c w : float3 F -> F -> F),
    main sd' (withLights ed ls (lightCount ed)) (withShadowMaps tex c w) input
    = main sd ed tex input.
Proof.
  intros Hn. split; [now apply directLighting_unlit|].
  intros sd' ls c w. unfold main.
  rewrite !directLighting_unlit by assumption.
  reflexivity.
Qed.

End FurtherLoopFacts.

(** ** The lighting functions, in exact arithmetic *)

Section FurtherRealFacts.
Local Open Scope R_scope.


Lemma Rpow_positive_base (r e : R) : 0 < r -> Rpow r e = Rpower r e.
Proof.
  intros Hr. unfold Rpow. destruct (Req_dec_T r 0); [lra | reflexivity].
Qed.

Lemma Rpow_one_base (e : R) : Rpow 1 e = 1.
Proof.
  rewrite Rpow_positive_base by lra. unfold Rpower.
  now rewrite ln_1, Rmult_0_r, exp_0.
Qed.

Lemma Rpow_unit_interval (r e : R) : 0 <= r <= 1 -> 0 < e -> 0 <= Rpow r e <= 1.
Proof.
  intros [H0 H1] He. destruct (Req_dec_T r 0) as [->|Hr].
  - rewrite Rpow_zero_base by assumption. lra.
  - assert (Hpos : 0 < r) by lra. rewrite Rpow_positive_base by assumption.
    split.
    + left. apply exp_pos.
    + rewrite <- (Rpow_one_base e). rewrite (Rpow_positive_base 1) by lra.
      apply Rle_Rpower_l; lra.
Qed.

Lemma Rpow_inverse_exponents (r a b : R) :
  0 <= r -> 0 < a -> 0 < b -> a * b = 1 -> Rpow (Rpow r a) b = r.
Proof.
  intros Hr Ha Hb Hab. destruct (Req_dec_T r 0) as [->|Hz].
  - now rewrite !Rpow_zero_base.
  - assert (Hpos : 0 < r) by lra.
    rewrite (Rpow_positive_base r) by assumption.
    rewrite Rpow_positive_base by apply exp_pos.
    rewrite Rpower_mult, Hab. now apply Rpower_1.
Qed.

Lemma saturate_of_ge_one (r : R) : 1 <= r -> saturate r = 1.
Proof.
  intros Hr. unfold saturate. real_ops.
  rewrite Rmax_left by lra. rewrite Rmin_right by lra. lra.
Qed.


(** X6.  The attenuation of a point light lies between 0 and 1 whatever the
    light's range and position and the pixel's position. *)
Theorem attenuation_in_unit_interval (light : Light R) (worldPos : float3 R) :
  0 <= Attenuate light worldPos <= 1.
Proof.
  unfold Attenuate.
  match goal with |- context [saturate ?a] => pose proof (saturate_bounds a) as Hs;
    generalize dependent (saturate a) end.
  intros s Hs. real_ops. nra.
Qed.

Lemma Attenuate_beyond_range (light : Light R) (worldPos : float3 R) :
  0 < range light -> range light <= distance (position light) worldPos ->
  Attenuate light worldPos = 0.
Proof.
  intros Hr Hd. unfold Attenuate.
  set (d := distance (position light) worldPos) in *.
  set (r := range light) in *.
  rewrite saturate_of_nonpositive; [real_ops; lra|].
  real_ops.
  assert (Hq : 1 <= d * d / (r * r)).
  { apply (Rmult_le_reg_r (r * r)); [nra|].
    unfold Rdiv. rewrite Rmult_assoc, Rinv_l by nra. nra. }
  lra.
Qed.

(** X7.  For a non-negative diffuse amount and a metalness between 0 and 1,
    [DiffuseEnergyConserve] returns, channel by channel, an amount between 0
    and the diffuse amount it was given, whatever the specular colour; a pure
    metal has no diffuse term. *)
Theorem diffuse_energy_is_conserved (diffuse specular : float3 R) (metalness : R) :
  0 <= x3 diffuse -> 0 <= y3 diffuse -> 0 <= z3 diffuse ->
  0 <= metalness <= 1 ->
  let d := DiffuseEnergyConserve diffuse specular metalness in
  0 <= x3 d <= x3 diffuse /\ 0 <= y3 d <= y3 diffuse /\ 0 <= z3 d <= z3 diffuse /\
  (metalness = 1 -> d = mkFloat3 0 0 0).
Proof.
  intros Hx Hy Hz Hm d. subst d.
  unfold DiffuseEnergyConserve, scale3, mul3, sub3, rrr, saturate3.
  cbn [x3 y3 z3].
  pose proof (saturate_bounds (x3 specular)) as Sx.
  pose proof (saturate_bounds (y3 specular)) as Sy.
  pose proof (saturate_bounds (z3 specular)) as Sz.
  generalize dependent (saturate (x3 specular)). intros sx Sx.
  generalize dependent (saturate (y3 specular)). intros sy Sy.
  generalize dependent (saturate (z3 specular)). intros sz Sz.
  real_ops.
  assert (Fx : 0 <= (1 * / 1 - sx) * (1 * / 1 - metalness) <= 1) by nra.
  assert (Fy : 0 <= (1 * / 1 - sy) * (1 * / 1 - metalness) <= 1) by nra.
  assert (Fz : 0 <= (1 * / 1 - sz) * (1 * / 1 - metalness) <= 1) by nra.
  assert (B : forall x f, 0 <= x -> 0 <= f <= 1 -> 0 <= x * f <= x)
    by (intros; nra).
  split; [now apply B|]. split; [now apply B|]. split; [now apply B|].
  intros ->. apply float3_eq; field.
Qed.

(** X8.  For a base reflectance [f0] with channels between 0 and 1 the
    Fresnel term lies between [f0] and 1 in every channel; it is [f0] when the
    two vectors are aligned (dot product at least 1) and white when they are
    perpendicular or opposed (dot product at most 0). *)
Theorem Fresnel_between_f0_and_one (v h f0 : float3 R) :
  0 <= x3 f0 <= 1 -> 0 <= y3 f0 <= 1 -> 0 <= z3 f0 <= 1 ->
  let f := Fresnel v h f0 in
  x3 f0 <= x3 f <= 1 /\ y3 f0 <= y3 f <= 1 /\ z3 f0 <= z3 f <= 1 /\
  (1 <= dot v h -> f = f0) /\
  (dot v h <= 0 -> f = mkFloat3 1 1 1).
Proof.
  intros Hx Hy Hz f. subst f. destruct f0 as [a b c]. cbn [x3 y3 z3] in *.
  unfold Fresnel, add3, scale3, mul3, sub3, rrr. cbn [x3 y3 z3].
  pose proof (saturate_bounds (dot v h)) as Hs.
  assert (Hp : 0 <= fpow (fsub (flit 1) (saturate (dot v h))) (flit 5) <= 1).
  { real_ops. apply Rpow_unit_interval; lra. }
  repeat split.
  1-6: generalize dependent (fpow (fsub (flit 1) (saturate (dot v h))) (flit 5));
       intros p Hp; real_ops; nra.
  - intros Hd. rewrite saturate_of_ge_one by assumption. real_ops.
    replace (1 * / 1 - 1) with 0 by lra. rewrite Rpow_zero_base by lra.
    apply float3_eq; field.
  - intros Hd. rewrite saturate_of_nonpositive by assumption. real_ops.
    replace (1 * / 1 - 0) with 1 by lra. rewrite Rpow_one_base.
    apply float3_eq; field.
Qed.

Lemma DiffuseEnergyConserve_metal (diffuse specular : float3 R) :
  DiffuseEnergyConserve diffuse specular 1 = mkFloat3 0 0 0.
Proof.
  unfold DiffuseEnergyConserve, scale3, mul3, sub3, rrr, saturate3.
  cbn [x3 y3 z3]. real_ops. apply float3_eq; field.
Qed.

Lemma GeometricShadowing_half_roughness (roughness : R) :
  roughness <> 0 -> 0 < fdiv (fmul roughness roughness) (flit 2.0).
Proof.
  intros Hr. real_ops. apply Rdiv_lt_0_compat; [|lra].
  destruct (Rtotal_order roughness 0) as [H|[H|H]]; [nra | contradiction | nra].
Qed.

Lemma GeometricShadowing_denom_positive (n v : float3 R) (roughness : R) :
  roughness <> 0 -> 0 < GeometricShadowing_denom n v roughness.
Proof.
  intros Hr. unfold GeometricShadowing_denom.
  pose proof (GeometricShadowing_half_roughness roughness Hr) as Hk.
  pose proof (saturate_bounds (dot n v)) as Hs.
  generalize dependent (fdiv (fmul roughness roughness) (flit 2.0)). intros k Hk.
  generalize dependent (saturate (dot n v)). intros s Hs.
  real_ops. destruct (Rle_dec k 1); nra.
Qed.

Lemma GeometricShadowing_facing_away (n v : float3 R) (roughness : R) :
  roughness <> 0 -> dot n v <= 0 -> GeometricShadowing n v roughness = 0.
Proof.
  intros Hr Hd. unfold GeometricShadowing.
  rewrite saturate_of_nonpositive by assumption.
  pose proof (GeometricShadowing_half_roughness roughness Hr) as Hk.
  generalize dependent (fdiv (fmul roughness roughness) (flit 2.0)). intros k Hk.
  real_ops. unfold Rdiv. ring.
Qed.


Lemma MicrofacetBRDF_no_shadowing_no_specular
  (n l v : float3 R) (roughness : R) (specColor : float3 R) :
  GeometricShadowing n v roughness * GeometricShadowing n l roughness = 0 ->
  MicrofacetBRDF n l v roughness specColor = mkFloat3 0 0 0.
Proof.
  intros HG. unfold MicrofacetBRDF, sdiv3, scale3, mul3, rrr.
  cbn [x3 y3 z3]. real_ops. rewrite HG.
  apply float3_eq; unfold Rdiv; ring.
Qed.


Lemma ColorFromLight_directional_unfold
  (light : Light R) (normal worldPos view surfaceColor specularColor : float3 R)
  (roughness metallic : R) :
  type light = LIGHT_TYPE_DIRECTIONAL ->
  ColorFromLight light normal worldPos view surfaceColor specularColor
                 roughness metallic
  = let dirToLight := normalize (neg3 (direction light)) in
    let specular := MicrofacetBRDF normal dirToLight view roughness specularColor in
    let diffuse :=
      DiffuseEnergyConserve (Diffuse dirToLight normal) specular metallic in
    mul3 (scale3 (add3 (mul3 diffuse surfaceColor) specular) (intensity light))
         (color light).
Proof. intros E. unfold ColorFromLight. rewrite E. reflexivity. Qed.

Lemma ColorFromLight_point_unfold
  (light : Light R) (normal worldPos view surfaceColor specularColor : float3 R)
  (roughness metallic : R) :
  type light = LIGHT_TYPE_POINT ->
  ColorFromLight light normal worldPos view surfaceColor specularColor
                 roughness metallic
  = let dirToLight := normalize (sub3 (position light) worldPos) in
    let specular := MicrofacetBRDF normal dirToLight view roughness specularColor in
    let diffuse :=
      DiffuseEnergyConserve (Diffuse dirToLight normal) specular metallic in
    scale3
      (mul3 (scale3 (add3 (mul3 diffuse surfaceColor) specular) (intensity light))
            (color light))
      (Attenuate light worldPos).
Proof. intros E. unfold ColorFromLight. rewrite E. reflexivity. Qed.



(** X13.  On a pure metal ([metallic = 1]) the colour a light contributes
    does not depend on the surface colour: only the specular colour tints
    it. *)
Theorem metal_ignores_surface_colour
  (light : Light R) (normal worldPos view specularColor : float3 R)
  (roughness : R) (surfaceColor surfaceColor' : float3 R) :
  ColorFromLight light normal worldPos view surfaceColor specularColor
                 roughness 1
  = ColorFromLight light normal worldPos view surfaceColor' specularColor
                   roughness 1.
Proof.
  unfold ColorFromLight.
  destruct (type light =? LIGHT_TYPE_DIRECTIONAL)%Z;
    [|destruct (type light =? LIGHT_TYPE_POINT)%Z; [|reflexivity]];
    cbv zeta; rewrite !DiffuseEnergyConserve_metal;
    unfold scale3, mul3, add3, rrr; cbn [x3 y3 z3]; real_ops;
    apply float3_eq; ring.
Qed.

(** X14.  Below the floor the roughness no longer matters: whenever
    [roughness^4 <= MIN_ROUGHNESS], [SpecDistribution] returns what it returns
    for roughness 0. *)
Theorem SpecDistribution_roughness_plateau (n h : float3 R) (roughness : R) :
  roughness * roughness * (roughness * roughness) <= 0.0000001 ->
  SpecDistribution n h roughness = SpecDistribution n h 0.
Proof.
  intros Hr. unfold SpecDistribution, MIN_ROUGHNESS. real_ops.
  rewrite (Rmax_right (roughness * roughness * (roughness * roughness)))
    by lra.
  rewrite (Rmax_right (0 * 0 * (0 * 0))) by lra.
  reflexivity.
Qed.

(** X15.  The Phong term [Specular] is a grey value between 0 and 1, and
    black for every exponent up to 0.05. *)
Theorem Specular_in_unit_interval
  (light : Light R) (normal view : float3 R) (exponent : R) :
  let s := Specular light normal view exponent in
  0 <= x3 s <= 1 /\ 0 <= y3 s <= 1 /\ 0 <= z3 s <= 1 /\
  x3 s = y3 s /\ y3 s = z3 s /\
  (exponent <= 0.05 -> s = mkFloat3 0 0 0).
Proof.
  intros s. subst s. unfold Specular. real_ops. unfold Rltb.
  destruct (Rlt_dec (5 * / 100) exponent) as [He|He]; cbn [rrr x3 y3 z3].
  - pose proof (saturate_bounds
                  (dot (reflect (normalize (direction light)) normal) view)) as Hs.
    pose proof (Rpow_unit_interval _ exponent Hs ltac:(lra)) as Hp.
    unfold rrr. cbn [x3 y3 z3]. repeat split; try lra.
  - repeat split; try lra. intros _. apply float3_eq; lra.
Qed.



(** X18.  With a flat metalness of 0 the specular colour is [F0_NON_METAL]
    in every channel, whatever the albedo; with a flat metalness of 1 it is
    the decoded albedo. *)
Theorem specular_colour_by_metalness
  (ed : ExternalData R) (tex : Textures R) (input : VertexToPixel R) :
  let s := surfaceOf ed tex input in
  let albedo := DarkenToGamma (rgb (Albedo tex (transformUV ed (uv input)))) in
  (metallicFlat ed = 0 -> s_specularColor s = mkFloat3 0.04 0.04 0.04) /\
  (metallicFlat ed = 1 -> s_specularColor s = albedo).
Proof.
  intros s albedo. subst s.
  unfold surfaceOf, surfaceMetallic. cbn [s_specularColor]. fold albedo.
  split; intros E; rewrite E; real_ops; unfold Reqb;
    (destruct (Req_dec_T _ _); [lra|]);
    unfold lerp3, lerp, rrr, F0_NON_METAL; cbn [x3 y3 z3]; real_ops.
  - apply float3_eq; lra.
  - destruct albedo as [a b c]. cbn [x3 y3 z3]. apply float3_eq; lra.
Qed.

(** X19.  The shadow map coordinates of a position whose projected [x] and
    [y] lie in [-1, 1] are [((x/w) + 1) / 2] and [(1 - (y/w)) / 2]: they lie in
    [0, 1], and [y] is flipped. *)
Theorem shadowUV_maps_clip_space_to_texture_space (p : float4 R) :
  w4 p <> 0 ->
  -1 <= x4 p / w4 p <= 1 -> -1 <= y4 p / w4 p <= 1 ->
  x2 (shadowUV p) = (x4 p / w4 p + 1) / 2 /\
  y2 (shadowUV p) = (1 - y4 p / w4 p) / 2 /\
  0 <= x2 (shadowUV p) <= 1 /\ 0 <= y2 (shadowUV p) <= 1.
Proof.
  intros Hw Hx Hy. unfold shadowUV. cbn [x2 y2]. real_ops.
  set (nx := x4 p / w4 p) in *. set (ny := y4 p / w4 p) in *.
  repeat split; lra.
Qed.

Lemma length_normalize (a : float3 R) :
  0 < dot a a -> dot (normalize a) (normalize a) = 1.
Proof.
  intros Ha. unfold normalize, sdiv3, length, dot in *.
  cbn [x3 y3 z3] in *. real_ops.
  set (q := x3 a * x3 a + y3 a * y3 a + z3 a * z3 a) in *.
  assert (Hs : 0 < sqrt q) by now apply sqrt_lt_R0.
  assert (Hsq : sqrt q * sqrt q = q) by (apply sqrt_sqrt; lra).
  set (l := sqrt q) in *. clearbody l.
  replace (x3 a / l * (x3 a / l) + y3 a / l * (y3 a / l) + z3 a / l * (z3 a / l))
    with (q / (l * l)) by (subst q; field; lra).
  rewrite Hsq. field. lra.
Qed.

Lemma normalize_idempotent (a : float3 R) :
  0 < dot a a -> normalize (normalize a) = normalize a.
Proof.
  intros Ha. pose proof (length_normalize a Ha) as Hu.
  destruct (normalize a) as [x y z]. unfold dot in Hu. cbn [x3 y3 z3] in Hu.
  real_ops. now apply normalize_unit.
Qed.


End FurtherRealFacts.

(** ** The further statements at the concrete scene *)

Section FurtherWitnesses.
Local Open Scope R_scope.


(** Half-metallic grey under a specular colour of 0.2. *)
Lemma diffuse_energy_is_conserved_witness :
  0 <= 0.5 <= 1 /\
  0 <= x3 (DiffuseEnergyConserve (mkFloat3 0.5 0.5 0.5) (mkFloat3 0.2 0.2 0.2)
                                 0.5) <= 0.5.
Proof.
  assert (Hm : 0 <= 0.5 <= 1) by lra.
  split; [exact Hm|].
  apply (diffuse_energy_is_conserved (mkFloat3 0.5 0.5 0.5)
           (mkFloat3 0.2 0.2 0.2) 0.5); cbn [x3 y3 z3]; lra.
Defined.

(** The non-metal reflectance, seen head-on. *)
Lemma Fresnel_between_f0_and_one_witness :
  0.04 <= x3 (Fresnel (mkFloat3 0 0 1) (mkFloat3 0 0 1)
                      (mkFloat3 0.04 0.04 0.04)) <= 1.
Proof.
  apply (Fresnel_between_f0_and_one (mkFloat3 0 0 1) (mkFloat3 0 0 1)
           (mkFloat3 0.04 0.04 0.04)); cbn [x3 y3 z3]; lra.
Defined.





Lemma SpecDistribution_roughness_plateau_witness :
  SpecDistribution (mkFloat3 0 0 1) (mkFloat3 0 0 1) 0.01
  = SpecDistribution (mkFloat3 0 0 1) (mkFloat3 0 0 1) 0.
Proof.
  apply SpecDistribution_roughness_plateau. lra.
Defined.


(** The demo pixel in cascade 0: projected to (-0.99, 0). *)
Lemma shadowUV_maps_clip_space_to_texture_space_witness :
  w4 (mkFloat4 (-0.99) 0 0.5 1) <> 0 /\
  0 <= x2 (shadowUV (mkFloat4 (-0.99) 0 0.5 1)) <= 1.
Proof.
  assert (Hw : w4 (mkFloat4 (-0.99) 0 0.5 1) <> 0) by (cbn [w4]; lra).
  split; [exact Hw|].
  apply (shadowUV_maps_clip_space_to_texture_space _ Hw);
    cbn [x4 y4 w4]; lra.
Defined.


(** Six active lights: a seventh entry and a count of 9 change nothing. *)
Lemma lights_past_the_count_are_ignored_witness :
  Z.min 9 MAX_NUM_LIGHTS = Z.min 6 MAX_NUM_LIGHTS /\
  main demoDecls
       (withLights (withLights (demoData true)
                               (demoLights ++ [demoSun; demoSun]) 6)
                   (demoLights ++ [demoSun; demoSun; demoPointCaster]) 9)
       demoTextures demoPixel
  = main demoDecls
         (withLights (demoData true) (demoLights ++ [demoSun; demoSun]) 6)
         demoTextures demoPixel.
Proof.
  assert (Hn : Z.min 9 MAX_NUM_LIGHTS = Z.min 6 MAX_NUM_LIGHTS) by reflexivity.
  split; [exact Hn|].
  apply (lights_past_the_count_are_ignored demoDecls
           (withLights (demoData true) (demoLights ++ [demoSun; demoSun]) 6)).
  - exact Hn.
  - intros j Hj. cbn [withLights lightCount lights] in *.
    assert (Ej : j = 0%Z \/ j = 1%Z \/ j = 2%Z \/ j = 3%Z \/ j = 4%Z \/ j = 5%Z)
      by (unfold MAX_NUM_LIGHTS in Hj; lia).
    destruct Ej as [->|[->|[->|[->|[->| ->]]]]]; reflexivity.
Defined.

(** Under the sun alone, which casts no shadows, fully shadowing maps leave
    the pixel as it is. *)
Lemma shadow_maps_unused_without_casters_witness :
  castsShadows demoSun = false /\
  main demoDecls (withLights (demoData true) [demoSun] 1)
       (withShadowMaps demoTextures (fun _ _ => 0) (fun _ _ => 0)) demoPixel
  = main demoDecls (withLights (demoData true) [demoSun] 1) demoTextures
         demoPixel.
Proof.
  split; [reflexivity|].
  apply shadow_maps_unused_without_casters.
  intros j Hj. cbn [withLights lightCount lights] in *.
  assert (Ej : j = 0%Z) by (unfold MAX_NUM_LIGHTS in Hj; lia).
  rewrite Ej. reflexivity.
Defined.

(** The demo scene with an active light count of 0. *)
Lemma no_active_light_no_direct_lighting_witness :
  (lightCount (demoData false) <= 0)%Z /\
  directLighting demoDecls (demoData false) demoTextures demoPixel
  = float3_zero.
Proof.
  assert (Hn : (lightCount (demoData false) <= 0)%Z)
    by (cbn [demoData lightCount]; lia).
  split; [exact Hn|].
  apply (no_active_light_no_direct_lighting demoDecls (demoData false)
           demoTextures demoPixel Hn).
Defined.

End FurtherWitnesses.

(** * The texture and sampler maps of [Material] *)

Section MaterialMaps.
Import String.
Context {A : Type}.

Lemma find_none_iff (k : string) (m : Material.umap A) :
  Material.find k m = None <-> ~ In k (map fst m).
Proof.
  induction m as [|[k' v] m IH]; simpl.
  - tauto.
  - destruct (String.eqb_spec k k') as [->|Hne].
    + split; [discriminate | intros Hn; exfalso; apply Hn; now left].
    + rewrite IH. split.
      * intros Hn [He|Hi]; [congruence | contradiction].
      * intros Hn Hi. apply Hn. now right.
Qed.

Lemma find_insert_or_assign (k k' : string) (v : A) (m : Material.umap A) :
  Material.find k' (Material.insert_or_assign k v m)
  = if String.eqb k' k then Some v else Material.find k' m.
Proof.
  induction m as [|[k0 v0] m IH]; simpl.
  - reflexivity.
  - destruct (String.eqb_spec k k0) as [->|Hne]; simpl.
    + now destruct (String.eqb k' k0).
    + rewrite IH. destruct (String.eqb_spec k' k0) as [->|Hne'].
      * destruct (String.eqb_spec k0 k); [congruence | reflexivity].
      * reflexivity.
Qed.

Lemma keys_insert_or_assign (k : string) (v : A) (m : Material.umap A) :
  map fst (Material.insert_or_assign k v m)
  = match Material.find k m with
    | Some _ => map fst m
    | None => map fst m ++ [k]
    end.
Proof.
  induction m as [|[k0 v0] m IH]; simpl.
  - reflexivity.
  - destruct (String.eqb_spec k k0) as [->|Hne]; simpl.
    + reflexivity.
    + rewrite IH. now destruct (Material.find k m).
Qed.

Lemma unique_keys_insert_or_assign (k : string) (v : A) (m : Material.umap A) :
  Material.unique_keys m ->
  Material.unique_keys (Material.insert_or_assign k v m).
Proof.
  unfold Material.unique_keys. intros Hu. rewrite keys_insert_or_assign.
  destruct (Material.find k m) eqn:E; [assumption|].
  apply find_none_iff in E.
  apply NoDup_app; [assumption | constructor; [intros []|constructor] |].
  intros x Hx [<-|[]]. contradiction.
Qed.

Lemma size_insert_or_assign (k : string) (v : A) (m : Material.umap A) :
  Material.size (Material.insert_or_assign k v m)
  = match Material.find k m with
    | Some _ => Material.size m
    | None => S (Material.size m)
    end.
Proof.
  unfold Material.size. rewrite <- !(length_map fst), keys_insert_or_assign.
  destruct (Material.find k m); [reflexivity|].
  rewrite length_app. simpl. lia.
Qed.

Lemma find_insert (k k' : string) (v : A) (m : Material.umap A) :
  Material.find k' (Material.insert k v m)
  = if String.eqb k' k
    then match Material.find k m with Some v0 => Some v0 | None => Some v end
    else Material.find k' m.
Proof.
  unfold Material.insert.
  destruct (String.eqb_spec k' k) as [->|Hne].
  - destruct (Material.find k m) eqn:E; [assumption|].
    simpl. now rewrite String.eqb_refl.
  - destruct (Material.find k m) eqn:E; [reflexivity|].
    simpl. destruct (String.eqb_spec k' k); [congruence | reflexivity].
Qed.

Lemma unique_keys_insert (k : string) (v : A) (m : Material.umap A) :
  Material.unique_keys m -> Material.unique_keys (Material.insert k v m).
Proof.
  unfold Material.unique_keys, Material.insert. intros Hu.
  destruct (Material.find k m) eqn:E; [assumption|].
  apply find_none_iff in E. simpl. now constructor.
Qed.

End MaterialMaps.

Section MaterialFacts.
Import String.
Context {F Shader Srv Sampler : Type}.

(** X21.  [SetAlbedo] and [SetNormal] bind their own key to the new
    resource whether or not the key was bound before, leave every other
    texture key and all samplers as they were, add an entry only for a key
    that was unbound, and never leave a key bound twice. *)
Theorem SetAlbedo_SetNormal_rebind_one_key
  (m : Material.t F Shader Srv Sampler) (srv : Srv) :
  let after_albedo := Material.SetAlbedo m srv in
  let after_normal := Material.SetNormal m srv in
  (Material.find "Albedo" (Material.textureSrvs after_albedo) = Some srv /\
   Material.find "NormalMap" (Material.textureSrvs after_normal) = Some srv) /\
  (forall k, k <> "Albedo"%string ->
     Material.find k (Material.textureSrvs after_albedo)
     = Material.find k (Material.textureSrvs m)) /\
  (forall k, k <> "NormalMap"%string ->
     Material.find k (Material.textureSrvs after_normal)
     = Material.find k (Material.textureSrvs m)) /\
  (Material.textureSamplers after_albedo = Material.textureSamplers m /\
   Material.textureSamplers after_normal = Material.textureSamplers m) /\
  (Material.size (Material.textureSrvs after_albedo)
   = match Material.find "Albedo" (Material.textureSrvs m) with
     | Some _ => Material.size (Material.textureSrvs m)
     | None => S (Material.size (Material.textureSrvs m))
     end) /\
  (Material.size (Material.textureSrvs after_normal)
   = match Material.find "NormalMap" (Material.textureSrvs m) with
     | Some _ => Material.size (Material.textureSrvs m)
     | None => S (Material.size (Material.textureSrvs m))
     end) /\
  (Material.unique_keys (Material.textureSrvs m) ->
   Material.unique_keys (Material.textureSrvs after_albedo) /\
   Material.unique_keys (Material.textureSrvs after_normal)).
Proof.
  cbv zeta. unfold Material.SetAlbedo, Material.SetNormal.
  cbn [Material.withTextureSrvs Material.textureSrvs Material.textureSamplers].
  repeat split.
  - now rewrite find_insert_or_assign, String.eqb_refl.
  - now rewrite find_insert_or_assign, String.eqb_refl.
  - intros k Hk. rewrite find_insert_or_assign.
    destruct (String.eqb_spec k "Albedo"); [contradiction | reflexivity].
  - intros k Hk. rewrite find_insert_or_assign.
    destruct (String.eqb_spec k "NormalMap"); [contradiction | reflexivity].
  - apply size_insert_or_assign.
  - apply size_insert_or_assign.
  - now apply unique_keys_insert_or_assign.
  - now apply unique_keys_insert_or_assign.
Qed.

(** X22.  Binding the albedo twice keeps the last resource and does not
    grow the map, and the order in which the albedo and the normal map are
    bound does not show in any lookup. *)
Theorem texture_setters_compose
  (m : Material.t F Shader Srv Sampler) (a a' n : Srv) (k : string) :
  Material.find k (Material.textureSrvs
                     (Material.SetAlbedo (Material.SetAlbedo m a) a'))
  = Material.find k (Material.textureSrvs (Material.SetAlbedo m a')) /\
  Material.find k (Material.textureSrvs
                     (Material.SetNormal (Material.SetAlbedo m a) n))
  = Material.find k (Material.textureSrvs
                       (Material.SetAlbedo (Material.SetNormal m n) a)) /\
  Material.size (Material.textureSrvs
                   (Material.SetAlbedo (Material.SetAlbedo m a) a'))
  = Material.size (Material.textureSrvs (Material.SetAlbedo m a)).
Proof.
  unfold Material.SetAlbedo, Material.SetNormal.
  cbn [Material.withTextureSrvs Material.textureSrvs].
  rewrite !find_insert_or_assign. repeat split.
  - now destruct (String.eqb k "Albedo").
  - now destruct (String.eqb_spec k "NormalMap") as [->|Hn].
  - rewrite size_insert_or_assign, find_insert_or_assign, String.eqb_refl.
    reflexivity.
Qed.

(** X23.  [AddSampler] never replaces a sampler: for a shader name that is
    already bound the material is left exactly as it was; for a new name the
    sampler is bound and the map grows by one; every other name keeps its
    binding, the textures are untouched and no name is bound twice. *)
Theorem AddSampler_keeps_existing_binding
  (m : Material.t F Shader Srv Sampler) (shaderName : string)
  (sampler : Sampler) :
  let after := Material.AddSampler m shaderName sampler in
  (forall bound,
     Material.find shaderName (Material.textureSamplers m) = Some bound ->
     after = m) /\
  (Material.find shaderName (Material.textureSamplers m) = None ->
   Material.find shaderName (Material.textureSamplers after) = Some sampler /\
   Material.size (Material.textureSamplers after)
   = S (Material.size (Material.textureSamplers m))) /\
  (forall k, k <> shaderName ->
     Material.find k (Material.textureSamplers after)
     = Material.find k (Material.textureSamplers m)) /\
  Material.textureSrvs after = Material.textureSrvs m /\
  (Material.unique_keys (Material.textureSamplers m) ->
   Material.unique_keys (Material.textureSamplers after)).
Proof.
  cbv zeta. unfold Material.AddSampler.
  cbn [Material.withTextureSamplers Material.textureSrvs
       Material.textureSamplers].
  split; [|split; [|split; [|split]]].
  - intros bound Hb. unfold Material.insert. rewrite Hb. now destruct m.
  - intros Hnone. split.
    + rewrite find_insert, String.eqb_refl. now rewrite Hnone.
    + unfold Material.insert. now rewrite Hnone.
  - intros k Hk. rewrite find_insert.
    destruct (String.eqb_spec k shaderName); [contradiction | reflexivity].
  - reflexivity.
  - now apply unique_keys_insert.
Qed.

End MaterialFacts.
